(** * ri-solr-diff: the streaming reconciliation of a Fedora resource index
      against a Solr index, embedded from [bin/ri-solr-diff.py].

    The script pulls two paginated, sorted result streams (one from the
    resource index, one from Solr), merges them in lock step by
    (timestamp, PID) and asks GSearch to re-index every PID on which the two
    sides disagree.  The embedding follows the script top to bottom: the two
    generator classes, the [gsearch] class, and the module-level driver. *)

From Stdlib Require Import ZArith List String Ascii Bool Lia Sorted.
From Equations Require Import Equations.
Import ListNotations.

Local Open Scope Z_scope.

(** ** Values *)

(** [dateutil.parser.parse] turns the timestamp of a result into an instant;
    instants are compared with [<].  An instant is an integer here (any fixed
    resolution), a PID is a string compared the way Python compares strings,
    character by character. *)
Definition timestamp : Type := Z.

(** The tuple [(pid, time)] both generators yield. *)
Definition record : Type := string * timestamp.

(** The exceptions the script can run into on its own.  [NameError] carries
    the unbound name, [IndexError] comes from [docs[-1]] on an empty list,
    [ValueError] and [OverflowError] from [time.gmtime] and [time.strftime]
    on a timestamp they cannot take. *)
Inductive exn : Type :=
| NameError (name : string)
| IndexError
| ValueError
| OverflowError.

Definition codes_ok : Z := 200.

(** ** Generator objects *)

(** How the body of a generator ends once it has yielded everything: it
    returns (the caller sees [StopIteration]) or an exception escapes. *)
Inductive ending : Type :=
| StopIteration
| Raise (e : exn).

(** A generator object, seen from its consumer: the records it has yet to
    yield and the way its body ends after them.  Neither query service is
    touched by anything but its own generator, so what a generator yields does
    not depend on when it is pulled. *)
Record generator : Type := mkGenerator {
  pending : list record;
  finish : ending
}.

Inductive pulled : Type :=
| Yield (r : record) (it : generator)
| Exhausted (it : generator)
| Raised (e : exn) (it : generator).

(** [it.next()].  A generator that has returned or raised is finished and
    raises [StopIteration] from then on. *)
Definition next (it : generator) : pulled :=
  match pending it with
  | r :: rest => Yield r (mkGenerator rest (finish it))
  | [] =>
      match finish it with
      | StopIteration => Exhausted (mkGenerator [] StopIteration)
      | Raise e => Raised e (mkGenerator [] StopIteration)
      end
  end.

(** ** The two query services *)

(** A query service holds the rows that match the fixed part of the query, in
    the order the query asks for ([ORDER BY ?timestamp ?obj], respectively
    [sort: <field> asc, PID asc]), and answers its [n]-th request (counted
    from 0) with the HTTP status [status_code n]. *)
Record service : Type := mkService {
  rows : list record;
  status_code : nat -> Z
}.

(** The timestamp restriction of a request: none, [FILTER(?timestamp >= t)],
    or the strict forms [FILTER(?timestamp > t)] and [fq = field:{t TO *}]
    (a Solr range with a curly bracket excludes its end point). *)
Inductive lower_bound : Type :=
| Unbounded
| AtLeast (t : timestamp)
| After (t : timestamp).

Definition admits (f : lower_bound) (r : record) : bool :=
  match f with
  | Unbounded => true
  | AtLeast t => t <=? snd r
  | After t => t <? snd r
  end.

(** The rows a request matches, and the page of at most [limit] of them that
    the response carries. *)
Definition matching (srv : service) (f : lower_bound) : list record :=
  filter (admits f) (rows srv).

Definition page_of (srv : service) (f : lower_bound) (limit : nat) : list record :=
  firstn limit (matching srv f).

Definition inspect {A : Type} (a : A) : {b : A | a = b} := exist _ a eq_refl.

(** Every later request of either generator asks for the rows strictly after
    the timestamp of the last row of the page before, a row the request before
    matched: fewer rows match it than matched the request before. *)
Ltac cursor_moves_on limit Heq :=
  match goal with
  | |- (List.length (matching ?srv (After (snd ?x))) < List.length (matching ?srv ?f))%nat =>
      let Hx := fresh "Hx" in
      assert (Hx : In x (matching srv f));
      [ rewrite <- (firstn_skipn limit (matching srv f));
        unfold page_of in Heq; rewrite Heq; apply in_or_app; left;
        match x with
        | last ?page ?r =>
            destruct (@exists_last _ (r :: page)) as (l' & a' & E'); [discriminate|];
            replace x with (last (r :: page) r) by (destruct page; reflexivity);
            rewrite E', last_last; apply in_or_app; right; now left
        end
      | unfold matching in *; apply filter_In in Hx; destruct Hx as [Hin Hadm];
        let Hmono := fresh "Hmono" in
        assert (Hmono : forall y, admits (After (snd x)) y = true -> admits f y = true)
          by (intros y; destruct f; simpl in *; auto;
              rewrite ?Z.leb_le, ?Z.ltb_lt in *; lia);
        let Hirr := fresh "Hirr" in
        assert (Hirr : admits (After (snd x)) x = false) by apply Z.ltb_irrefl;
        let g := fresh "g" in
        remember (After (snd x)) as g eqn:Hg; clear Hg;
        remember x as x0 eqn:Hx0; clear Hx0;
        revert Hin; generalize (rows srv); intros l;
        let Hle := fresh "Hle" in
        assert (Hle : forall l, (List.length (filter (admits g) l)
                                 <= List.length (filter (admits f) l))%nat)
          by (let l0 := fresh "l" in let z := fresh "z" in let IH := fresh "IH" in
              let E := fresh "E" in
              intros l0; induction l0 as [|z l0 IH]; cbn [filter]; auto;
              destruct (admits g z) eqn:E;
              [ rewrite (Hmono z E); cbn [List.length]; lia
              | destruct (admits f z); cbn [List.length]; lia ]);
        let y := fresh "y" in let IH := fresh "IH" in let E := fresh "E" in
        induction l as [|y l IH]; cbn [filter In]; [tauto|];
        intros [Hy|Hin];
        [ subst y; rewrite Hadm, Hirr; cbn [List.length]; specialize (Hle l); lia
        | specialize (IH Hin); destruct (admits g y) eqn:E;
          [ rewrite (Hmono y E); cbn [List.length]; lia
          | destruct (admits f y); cbn [List.length]; lia ] ] ]
  end.

(** *** [ri_generator.__iter__]

    The [while] loop, entered with the response to the [n]-th request, whose
    filter was [f].  [query_result['results'][-1]] is the last row of the
    page. *)
Equations? ri_while (srv : service) (limit : nat) (n : nat) (f : lower_bound)
  : list record by wf (List.length (matching srv f)) lt :=
ri_while srv limit n f with (status_code srv n =? codes_ok) => {
  | false := [];
  | true with inspect (page_of srv f limit) => {
      | exist _ [] _ := [];
      | exist _ (r :: page) Heq :=
          (r :: page) ++ ri_while srv limit (S n) (After (snd (last page r))) } }.
Proof. cursor_moves_on limit Heq. Qed.

(** The filter of the first request: [?timestamp >= start] when a start is
    given. *)
Definition ri_first_filter (start : option timestamp) : lower_bound :=
  match start with
  | Some s => AtLeast s
  | None => Unbounded
  end.

Definition ri_generator_iter (srv : service) (start : option timestamp) (limit : nat)
  : generator :=
  mkGenerator (ri_while srv limit 0 (ri_first_filter start)) StopIteration.

(** *** [solr_generator.__iter__]

    The loop leaves on [numFound == 0], the number of rows the request
    matches, not on an empty page: with [rows = 0] the page is empty while
    [numFound] is not, and [docs[-1]] raises [IndexError]. *)
Equations? solr_while (srv : service) (limit : nat) (n : nat) (f : lower_bound)
  : generator by wf (List.length (matching srv f)) lt :=
solr_while srv limit n f with (status_code srv n =? codes_ok) => {
  | false := mkGenerator [] StopIteration;
  | true with (Nat.eqb (List.length (matching srv f)) 0) => {
      | true := mkGenerator [] StopIteration;
      | false with inspect (page_of srv f limit) => {
          | exist _ [] _ := mkGenerator [] (Raise IndexError);
          | exist _ (r :: page) Heq :=
              let rest := solr_while srv limit (S n) (After (snd (last page r))) in
              mkGenerator ((r :: page) ++ pending rest) (finish rest) } } }.
Proof. cursor_moves_on limit Heq. Qed.

(** The filter of the first request: [fq = field:{start TO *}] when a start
    is given, the same range the later requests use. *)
Definition solr_first_filter (start : option timestamp) : lower_bound :=
  match start with
  | Some s => After s
  | None => Unbounded
  end.

Definition solr_generator_iter (srv : service) (start : option timestamp) (limit : nat)
  : generator :=
  solr_while srv limit 0 (solr_first_filter start).

(** ** The [gsearch] class *)

(** The state of the [gsearch] object and of what it has sent out: the
    [updated] attribute, the PIDs of the update requests posted so far, in
    order, and the PIDs written by [logging.info] after a successful update. *)
Record gsearch : Type := mkGsearch {
  updated : bool;
  requests : list string;
  info_log : list string
}.

(** [gsearch.__init__] *)
Definition gsearch_init : gsearch := mkGsearch false [] [].

(** The script's last lines pick between [exit(1)] and [exit(0)]; an exception
    nothing catches ends the interpreter with a traceback and status 1. *)
Inductive outcome : Type :=
| Exit (code : Z)
| Traceback (e : exn).

Definition exit_status (o : outcome) : Z :=
  match o with
  | Exit code => code
  | Traceback _ => 1
  end.

(** What a run leaves behind: how the process ended and the [gsearch] object
    at that point. *)
Record run : Type := mkRun {
  ended : outcome;
  trigger_state : gsearch
}.

(** The names bound at module level when the driver runs: the imports, the
    argument parser and its groups, the three classes and the driver's own
    variables ([gsearch] is rebound to the instance; the variables the loops
    assign come as the loops run, and none of them is called [logger]). *)
Definition module_globals : list string :=
  ["dateutil"; "time"; "requests"; "argparse"; "logging"; "json";
   "parser"; "group"; "log_group";
   "ri_generator"; "solr_generator"; "gsearch";
   "args"; "start"; "timestamp"; "ri"; "solr"]%string.

(** Evaluating a global name: [NameError] when nothing binds it. *)
Definition load_global (name : string) : option exn :=
  if existsb (String.eqb name) module_globals then None else Some (NameError name).

(** The variables of the merge loop. *)
Record locals : Type := mkLocals {
  ri : generator;
  solr : generator;
  gs : gsearch;
  ri_result : record;
  solr_result : record
}.

(** How the [try] statement is left: [StopIteration] reached its [except]
    clause, or another exception went through it. *)
Inductive finished : Type :=
| Caught (ri solr : generator) (g : gsearch)
| Uncaught (e : exn) (g : gsearch).

Inductive signal : Type :=
| Again (l : locals)
| Done (f : finished).

(** The trigger object when the [try] statement is left. *)
Definition trigger_of (f : finished) : gsearch :=
  match f with
  | Caught _ _ g => g
  | Uncaught _ g => g
  end.

Definition remaining (l : locals) : nat :=
  (List.length (pending (ri l)) + List.length (pending (solr l)))%nat.

Section Driver.

(** The GSearch endpoint: the status of the response to the [n]-th update
    request (counted from 0), which asked for [pid]. *)
Variable trigger : nat -> string -> Z.

(** [self.session.post(self.url, data=data)] *)
Definition session_post (g : gsearch) (pid : string) : gsearch * Z :=
  (mkGsearch (updated g) (requests g ++ [pid]) (info_log g),
   trigger (List.length (requests g)) pid).

(** The first statement of [update_pid]. *)
Definition mark_updated (g : gsearch) : gsearch :=
  if negb (updated g) then mkGsearch true (requests g) (info_log g) else g.

(** The rest of [update_pid]: the request and the logging of its result
    ([logging.debug] lines are not kept). *)
Definition notify (g : gsearch) (pid : string) : gsearch :=
  let (g', status) := session_post g pid in
  if status =? codes_ok
  then mkGsearch (updated g') (requests g') (info_log g' ++ [pid])
  else g'.

(** [gsearch.update_pid] *)
Definition update_pid (g : gsearch) (pid : string) : gsearch :=
  notify (mark_updated g) pid.

(** The states the trigger object can get into from [g]: by calls of
    [update_pid], nothing else writes to it. *)
Inductive reaches (g : gsearch) : gsearch -> Prop :=
| reaches_here : reaches g g
| reaches_update (g' : gsearch) (pid : string) :
    reaches g g' -> reaches g (update_pid g' pid).

(** [ri_result = ri.next()] and [solr_result = solr.next()] inside the loop,
    the trigger object being [g] by then. *)
Definition pull_ri (l : locals) (g : gsearch) : signal :=
  match next (ri l) with
  | Yield r it => Again (mkLocals it (solr l) g r (solr_result l))
  | Exhausted it => Done (Caught it (solr l) g)
  | Raised e it => Done (Uncaught e g)
  end.

Definition pull_solr (l : locals) (g : gsearch) : signal :=
  match next (solr l) with
  | Yield r it => Again (mkLocals (ri l) it g (ri_result l) r)
  | Exhausted it => Done (Caught (ri l) it g)
  | Raised e it => Done (Uncaught e g)
  end.

(** The body of [while ri_result and solr_result:]. *)
Definition loop_body (l : locals) : signal :=
  let '(ri_pid, ri_time) := ri_result l in
  let '(solr_pid, solr_time) := solr_result l in
  if ri_time <? solr_time then
    pull_ri l (update_pid (gs l) ri_pid)
  else if solr_time <? ri_time then
    pull_solr l (update_pid (gs l) solr_pid)
  else if (ri_pid <? solr_pid)%string then
    pull_ri l (update_pid (gs l) ri_pid)
  else if (solr_pid <? ri_pid)%string then
    pull_solr l (update_pid (gs l) solr_pid)
  else
    match pull_ri l (gs l) with
    | Again l' => pull_solr l' (gs l')
    | Done f => Done f
    end.

(** The [while] loop.  Its condition is the truth value of two 2-tuples,
    which is always true: the loop is left by an exception only. *)
Equations? while_loop (l : locals) : finished by wf (remaining l) lt :=
while_loop l with inspect (loop_body l) => {
  | exist _ (Again l') Heq := while_loop l';
  | exist _ (Done f) _ := f }.
Proof.
  revert Heq. unfold loop_body, pull_ri, pull_solr, next, remaining.
  destruct l as [[pa ea] [pb eb] g [p1 t1] [p2 t2]]; cbn.
  destruct pa as [|a pa], pb as [|b pb], ea, eb; cbn;
    repeat match goal with
           | |- context [if ?b then _ else _] => destruct b
           end;
    intros H; inversion H; subst; cbn; lia.
Qed.

(** The [try] statement. *)
Definition try_block (ri solr : generator) (g : gsearch) : finished :=
  match next ri with
  | Exhausted ri' => Caught ri' solr g
  | Raised e _ => Uncaught e g
  | Yield ri_result ri' =>
      match next solr with
      | Exhausted solr' => Caught ri' solr' g
      | Raised e _ => Uncaught e g
      | Yield solr_result solr' =>
          while_loop (mkLocals ri' solr' g ri_result solr_result)
      end
  end.

(** The two [for] loops after it have the same shape: for each record left
    in the generator, [logger.debug(...)] and then [gsearch.update_pid(pid)].
    The first thing the body does is to look up the name [logger]. *)
Fixpoint for_leftover (items : list record) (fin : ending) (g : gsearch)
  : gsearch * option exn :=
  match items with
  | [] =>
      match fin with
      | StopIteration => (g, None)
      | Raise e => (g, Some e)
      end
  | (pid, _) :: rest =>
      match load_global "logger" with
      | Some e => (g, Some e)
      | None => for_leftover rest fin (update_pid g pid)
      end
  end.

(** The driver from the creation of the [gsearch] object on. *)
Definition reconcile (ri solr : generator) : run :=
  match try_block ri solr gsearch_init with
  | Uncaught e g => mkRun (Traceback e) g
  | Caught ri' solr' g =>
      match for_leftover (pending ri') (finish ri') g with
      | (g1, Some e) => mkRun (Traceback e) g1
      | (g1, None) =>
          match for_leftover (pending solr') (finish solr') g1 with
          | (g2, Some e) => mkRun (Traceback e) g2
          | (g2, None) => mkRun (if updated g2 then Exit 1 else Exit 0) g2
          end
      end
  end.

(** The reconciler on two finite streams that end normally. *)
Definition reconcile_streams (A B : list record) : run :=
  reconcile (mkGenerator A StopIteration) (mkGenerator B StopIteration).

End Driver.

(** ** The command line and the whole script *)

(** The four switches of the required, mutually exclusive group. *)
Inductive selection : Type :=
| All
| LastNDays (n : Z)
| LastNSeconds (n : Z)
| Since (n : Z).

Record arguments : Type := mkArguments {
  switch : selection;
  query_limit : nat
}.

(** Instants are counted in microseconds, the resolution of a Python
    [datetime]; the start of the window has the resolution of a second. *)
Definition second : Z := 1000000.

(** [time.strftime('%Y-%m-%dT%H:%M:%SZ', time.gmtime(t))] belongs to the
    platform: for a whole number [t] of seconds since the epoch it gives the
    instant the formatted string denotes, or the exception that [gmtime] or
    [strftime] raises on [t] (a year that does not fit, a year [strftime]
    refuses).  All that is taken for granted of a platform is that the
    seconds of a 32-bit [time_t] from the epoch on are formatted as they
    are. *)
Record platform : Type := mkPlatform {
  strftime_gmtime : Z -> timestamp + exn;
  strftime_gmtime_posix :
    forall t, 0 <= t <= 2147483647 -> strftime_gmtime t = inl (second * t)
}.

(** The variable [timestamp], in microseconds, [now] being [time.time()] in
    microseconds (the rounding of floating-point numbers is not followed).
    The tests [if args.last_n_days:] and the like are false for 0 as well as
    for an absent switch. *)
Definition window_timestamp (sel : selection) (now : Z) : Z :=
  match sel with
  | LastNDays n => if n =? 0 then 0 else now - second * (24 * 3600 * n)
  | LastNSeconds n => if n =? 0 then 0 else now - second * n
  | Since n => if n =? 0 then 0 else second * n
  | All => 0
  end.

(** The variable [start], or the exception of line 183.  [time.gmtime] cuts
    the fraction of its argument off, towards zero. *)
Definition window_start (os : platform) (sel : selection) (now : Z)
  : option timestamp + exn :=
  match sel with
  | All => inl None
  | _ =>
      match strftime_gmtime os (Z.quot (window_timestamp sel now) second) with
      | inl start => inl (Some start)
      | inr e => inr e
      end
  end.

(** The script: both generators get the same [start] and the same limit.
    When line 183 raises, nothing has been requested and the trigger object
    does not exist yet; the run is recorded with a trigger that has sent
    nothing. *)
Definition main (trigger : nat -> string -> Z) (os : platform) (args : arguments)
    (now : Z) (ri_service solr_service : service) : run :=
  match window_start os (switch args) now with
  | inr e => mkRun (Traceback e) gsearch_init
  | inl start =>
      let ri := ri_generator_iter ri_service start (query_limit args) in
      let solr := solr_generator_iter solr_service start (query_limit args) in
      reconcile trigger ri solr
  end.

(** ** Vocabulary of the properties *)

(** The order both queries ask for: by timestamp, then by PID. *)
Definition key_ltb (a b : record) : bool :=
  (snd a <? snd b) || ((snd a =? snd b) && (fst a <? fst b)%string).

Definition key_lt (a b : record) : Prop := key_ltb a b = true.

Definition key_le (a b : record) : Prop := key_lt a b \/ a = b.

(** The flag and the list of requests agree: the flag is set exactly when a
    request has gone out. *)
Definition consistent (g : gsearch) : Prop :=
  updated g = negb (Nat.eqb (List.length (requests g)) 0).

(** A correctly sorted stream. *)
Definition ascending (s : list record) : Prop := Sorted key_le s.

(** The order on the timestamps alone. *)
Definition time_le (a b : record) : Prop := snd a <= snd b.

(** The records the merge loop hands to the trigger, for two streams that end
    normally: the smaller of the two current records until either stream has
    nothing left to give. *)
Fixpoint flagged (A : list record) : list record -> list record :=
  fix against (B : list record) : list record :=
    match A, B with
    | a :: A', b :: B' =>
        if key_ltb a b then a :: flagged A' B
        else if key_ltb b a then b :: against B'
        else flagged A' B'
    | _, _ => []
    end.

(** A page boundary of a paginated listing of [l] falls between two rows that
    share a timestamp: the rows at positions [k * limit - 1] and [k * limit]. *)
Definition tie_split (limit : nat) (l : list record) : Prop :=
  exists (k : nat) (a b : record),
    (0 < k)%nat /\
    nth_error l (k * limit - 1) = Some a /\
    nth_error l (k * limit) = Some b /\
    snd a = snd b.

(** A service that differs from [srv] only in answering every request with
    status 200. *)
Definition always_ok (srv : service) : service :=
  mkService (rows srv) (fun _ => codes_ok).

(** The update requests that were answered with status 200, the requests
    being numbered from [n] on. *)
Fixpoint acknowledged (trigger : nat -> string -> Z) (n : nat) (pids : list string)
  : list string :=
  match pids with
  | [] => []
  | pid :: rest =>
      if trigger n pid =? codes_ok
      then pid :: acknowledged trigger (S n) rest
      else acknowledged trigger (S n) rest
  end.

(** What an iteration of the merge loop works on apart from the trigger
    object, and what the [try] statement leaves apart from it. *)
Definition frame (l : locals) : generator * generator * record * record :=
  (ri l, solr l, ri_result l, solr_result l).

Definition leaves (f : finished) : (generator * generator) + exn :=
  match f with
  | Caught ri solr _ => inl (ri, solr)
  | Uncaught e _ => inr e
  end.

(** ** Sample inputs *)

(** A trigger that accepts every update and one that rejects every update. *)
Definition trigger_accepting : nat -> string -> Z := fun _ _ => codes_ok.
Definition trigger_rejecting : nat -> string -> Z := fun _ _ => 500.

(** Scenario 4 of the specification: [a < b < c] at one timestamp. *)
Definition stream_ab : list record := [("a"%string, 1); ("b"%string, 1)].
Definition stream_bc : list record := [("b"%string, 1); ("c"%string, 1)].

(** One object, [x], with two different timestamps, and one that agrees. *)
Definition stream_x1_z5 : list record := [("x"%string, 1); ("z"%string, 5)].
Definition stream_x3_z5 : list record := [("x"%string, 3); ("z"%string, 5)].

(** The merge loop at a tie, same timestamp and different PIDs, with a record
    still to come on either side. *)
Definition locals_at_tie_then_more : locals :=
  mkLocals (mkGenerator [("c"%string, 2)] StopIteration)
           (mkGenerator [("d"%string, 3)] StopIteration)
           gsearch_init ("a"%string, 1) ("b"%string, 1).

(** A platform that formats the seconds from the year 1900 up to the last
    second whose year fits a C [int], and raises [ValueError] on the rest. *)
Definition sample_platform : platform.
Proof.
  refine (mkPlatform
            (fun t => if (-2208988800 <=? t) && (t <=? 67768036191676799)
                      then inl (second * t) else inr ValueError) _).
  intros t Ht.
  replace (-2208988800 <=? t) with true by (symmetry; apply Z.leb_le; lia).
  replace (t <=? 67768036191676799) with true by (symmetry; apply Z.leb_le; lia).
  reflexivity.
Defined.

(** A resource index whose second answer is a failure, and a Solr that holds
    the first of its two objects. *)
Definition service_failing_second : service :=
  mkService [("a"%string, 1); ("b"%string, 2)]
            (fun n => if Nat.eqb n 0 then codes_ok else 500).
Definition service_a : service :=
  mkService [("a"%string, 1)] (fun _ => codes_ok).

(** Two rows that share a timestamp, and the same with a later third row. *)
Definition service_tie : service :=
  mkService [("a"%string, 1); ("b"%string, 1)] (fun _ => codes_ok).
Definition service_tie_then_c : service :=
  mkService [("a"%string, 1); ("b"%string, 1); ("c"%string, 2)] (fun _ => codes_ok).

(** A service that is down: every request is answered with status 503. *)
Definition service_down : service :=
  mkService [("a"%string, 1)] (fun _ => 503).

(** * Properties *)

(** ** The order on PIDs and on records *)

Section Order.

Lemma ascii_compare_refl (c : ascii) : Ascii.compare c c = Eq.
Proof. unfold Ascii.compare. apply N.compare_refl. Qed.

Lemma ascii_compare_lt_trans (a b c : ascii) :
  Ascii.compare a b = Lt -> Ascii.compare b c = Lt -> Ascii.compare a c = Lt.
Proof.
  unfold Ascii.compare. rewrite !N.compare_lt_iff. apply N.lt_trans.
Qed.

Lemma string_compare_refl (s : string) : String.compare s s = Eq.
Proof.
  induction s as [|c s IH]; [reflexivity|].
  cbn. now rewrite ascii_compare_refl.
Qed.

Lemma string_compare_lt_trans (s1 : string) :
  forall s2 s3,
    String.compare s1 s2 = Lt -> String.compare s2 s3 = Lt ->
    String.compare s1 s3 = Lt.
Proof.
  induction s1 as [|a s1 IH]; intros [|b s2] [|c s3]; cbn; try congruence.
  destruct (Ascii.compare a b) eqn:Eab; try discriminate;
    destruct (Ascii.compare b c) eqn:Ebc; try discriminate; intros H12 H23.
  - apply Ascii.compare_eq_iff in Eab, Ebc. subst.
    rewrite ascii_compare_refl. eauto.
  - apply Ascii.compare_eq_iff in Eab. subst. now rewrite Ebc.
  - apply Ascii.compare_eq_iff in Ebc. subst. now rewrite Eab.
  - now rewrite (ascii_compare_lt_trans _ _ _ Eab Ebc).
Qed.

Lemma string_ltb_irrefl (s : string) : (s <? s)%string = false.
Proof. unfold String.ltb. now rewrite string_compare_refl. Qed.

Lemma string_ltb_trans (s1 s2 s3 : string) :
  (s1 <? s2)%string = true -> (s2 <? s3)%string = true -> (s1 <? s3)%string = true.
Proof.
  unfold String.ltb.
  destruct (String.compare s1 s2) eqn:E12; try discriminate.
  destruct (String.compare s2 s3) eqn:E23; try discriminate.
  now rewrite (string_compare_lt_trans _ _ _ E12 E23).
Qed.

Lemma string_ltb_asym (s1 s2 : string) :
  (s1 <? s2)%string = true -> (s2 <? s1)%string = false.
Proof.
  unfold String.ltb. rewrite (String.compare_antisym s1 s2).
  now destruct (String.compare s2 s1).
Qed.

(** Two different PIDs are always ordered, one way or the other. *)
Lemma string_ltb_total (s1 s2 : string) :
  (s1 <? s2)%string = false -> (s2 <? s1)%string = false -> s1 = s2.
Proof.
  unfold String.ltb. rewrite (String.compare_antisym s1 s2).
  destruct (String.compare s2 s1) eqn:E; cbn; try discriminate.
  intros _ _. symmetry. now apply String.compare_eq_iff.
Qed.

Lemma key_ltb_spec (a b : record) :
  key_ltb a b = true <->
  snd a < snd b \/ (snd a = snd b /\ (fst a <? fst b)%string = true).
Proof.
  unfold key_ltb.
  rewrite orb_true_iff, andb_true_iff, Z.ltb_lt, Z.eqb_eq. tauto.
Qed.

Lemma key_lt_irrefl (a : record) : ~ key_lt a a.
Proof.
  unfold key_lt. rewrite key_ltb_spec, string_ltb_irrefl. intros [H|[_ H]]; [lia|discriminate].
Qed.

Lemma key_lt_trans (a b c : record) : key_lt a b -> key_lt b c -> key_lt a c.
Proof.
  unfold key_lt. rewrite !key_ltb_spec.
  intros [H1|[H1 H1']] [H2|[H2 H2']]; try (left; lia).
  right. split; [lia|]. eapply string_ltb_trans; eauto.
Qed.

Lemma key_lt_asym (a b : record) : key_lt a b -> ~ key_lt b a.
Proof. intros H1 H2. exact (key_lt_irrefl a (key_lt_trans _ _ _ H1 H2)). Qed.

Lemma key_ltb_total (a b : record) :
  key_ltb a b = false -> key_ltb b a = false -> a = b.
Proof.
  destruct a as [p1 t1], b as [p2 t2]. unfold key_ltb; cbn.
  rewrite !orb_false_iff, !andb_false_iff, !Z.ltb_ge, !Z.eqb_neq.
  intros [H1 H1'] [H2 H2'].
  assert (t1 = t2) by lia. subst t2.
  f_equal. apply string_ltb_total; tauto.
Qed.

Lemma key_le_trans (a b c : record) : key_le a b -> key_le b c -> key_le a c.
Proof.
  unfold key_le. intros [H1| ->] [H2| ->]; auto.
  left. eapply key_lt_trans; eauto.
Qed.

(** A correctly sorted stream without repeated records is strictly
    increasing. *)
Lemma ascending_strict (s : list record) :
  ascending s -> NoDup s -> StronglySorted key_lt s.
Proof.
  intros Hs Hn.
  apply Sorted_StronglySorted in Hs; [|exact key_le_trans].
  induction Hs as [|a l Hl IH Ha]; [constructor|].
  inversion Hn as [|? ? Hnotin Hn']; subst.
  constructor; [auto|].
  rewrite Forall_forall in *. intros x Hx.
  destruct (Ha x Hx) as [Hlt| ->]; [exact Hlt|contradiction].
Qed.

End Order.

(** ** The trigger object *)

Section Trigger.

Variable trigger : nat -> string -> Z.

Lemma update_pid_updated (g : gsearch) (pid : string) :
  updated (update_pid trigger g pid) = true.
Proof.
  unfold update_pid, notify, mark_updated, session_post.
  destruct (updated g) eqn:E; cbn; rewrite ?E;
    destruct (_ =? codes_ok); cbn; auto.
Qed.

Lemma update_pid_requests (g : gsearch) (pid : string) :
  requests (update_pid trigger g pid) = requests g ++ [pid].
Proof.
  unfold update_pid, notify, mark_updated, session_post.
  destruct (updated g); cbn; destruct (_ =? codes_ok); cbn; auto.
Qed.

Lemma update_pid_info_log (g : gsearch) (pid : string) :
  exists more, info_log (update_pid trigger g pid) = info_log g ++ more.
Proof.
  unfold update_pid, notify, mark_updated, session_post.
  destruct (updated g); cbn; destruct (_ =? codes_ok); cbn;
    solve [ exists [pid]; reflexivity | exists []; now rewrite app_nil_r ].
Qed.

Lemma consistent_init : consistent gsearch_init.
Proof. reflexivity. Qed.

Lemma consistent_update_pid (g : gsearch) (pid : string) :
  consistent (update_pid trigger g pid).
Proof.
  unfold consistent. rewrite update_pid_updated, update_pid_requests.
  rewrite length_app. cbn. now rewrite Nat.add_1_r.
Qed.

End Trigger.

(** ** The merge loop *)

Section Loop.

Variable trigger : nat -> string -> Z.

Lemma while_loop_step (l : locals) :
  while_loop trigger l =
  match loop_body trigger l with
  | Again l' => while_loop trigger l'
  | Done f => f
  end.
Proof.
  simp while_loop. unfold inspect.
  assert (H : forall s (e : loop_body trigger l = s),
             while_loop_unfold_clause_1 trigger l (exist _ s e) =
             match s with
             | Again l' => while_loop trigger l'
             | Done f => f
             end)
    by (intros [l'|f] e; simp while_loop; reflexivity).
  apply H.
Qed.

(** Reasoning along the iterations of the loop. *)
Lemma while_loop_iterations (P : locals -> finished -> Prop) :
  (forall l f, loop_body trigger l = Done f -> P l f) ->
  (forall l l' f, loop_body trigger l = Again l' -> P l' f -> P l f) ->
  forall l, P l (while_loop trigger l).
Proof.
  intros Hdone Hagain l.
  funelim (while_loop trigger l).
  - eapply Hagain; [eassumption|]. now apply H.
  - now apply Hdone.
Qed.

(** The body, by the order of the two current records. *)
Lemma loop_body_cases (l : locals) :
  let a := ri_result l in
  let b := solr_result l in
  (key_ltb a b = true /\
   loop_body trigger l = pull_ri l (update_pid trigger (gs l) (fst a)))
  \/
  (key_ltb a b = false /\ key_ltb b a = true /\
   loop_body trigger l = pull_solr l (update_pid trigger (gs l) (fst b)))
  \/
  (a = b /\
   loop_body trigger l =
   match pull_ri l (gs l) with
   | Again l' => pull_solr l' (gs l')
   | Done f => Done f
   end).
Proof.
  unfold loop_body, key_ltb.
  destruct (ri_result l) as [p1 t1], (solr_result l) as [p2 t2]; cbn.
  destruct (t1 <? t2) eqn:E12; [left; auto|].
  destruct (t2 <? t1) eqn:E21.
  { right; left. rewrite Z.ltb_lt in E21. rewrite Z.ltb_ge in E12.
    replace (t1 =? t2) with false by (symmetry; apply Z.eqb_neq; lia). auto. }
  rewrite Z.ltb_ge in E12, E21. assert (t1 = t2) by lia. subst t2.
  rewrite Z.eqb_refl. cbn.
  destruct (p1 <? p2)%string eqn:P12; [left; auto|].
  destruct (p2 <? p1)%string eqn:P21; [right; left; auto|].
  right; right. split; [|reflexivity].
  f_equal. now apply string_ltb_total.
Qed.

Lemma reaches_trans (g1 g2 g3 : gsearch) :
  reaches trigger g1 g2 -> reaches trigger g2 g3 -> reaches trigger g1 g3.
Proof. intros H12 H23. induction H23; [assumption|now constructor]. Qed.

Lemma pull_ri_reaches (l : locals) (g : gsearch) :
  match pull_ri l g with
  | Again l' => gs l' = g
  | Done f => trigger_of f = g
  end.
Proof. unfold pull_ri. destruct (next (ri l)); reflexivity. Qed.

Lemma pull_solr_reaches (l : locals) (g : gsearch) :
  match pull_solr l g with
  | Again l' => gs l' = g
  | Done f => trigger_of f = g
  end.
Proof. unfold pull_solr. destruct (next (solr l)); reflexivity. Qed.

Lemma loop_body_reaches (l : locals) :
  match loop_body trigger l with
  | Again l' => reaches trigger (gs l) (gs l')
  | Done f => reaches trigger (gs l) (trigger_of f)
  end.
Proof.
  destruct (loop_body_cases l) as [[_ ->]|[(_ & _ & ->)|[_ ->]]].
  - pose proof (pull_ri_reaches l (update_pid trigger (gs l) (fst (ri_result l)))) as H.
    destruct (pull_ri _ _); rewrite H; repeat constructor.
  - pose proof (pull_solr_reaches l (update_pid trigger (gs l) (fst (solr_result l)))) as H.
    destruct (pull_solr _ _); rewrite H; repeat constructor.
  - pose proof (pull_ri_reaches l (gs l)) as H.
    destruct (pull_ri _ _) as [l'|f]; [|rewrite H; constructor].
    pose proof (pull_solr_reaches l' (gs l')) as H'.
    destruct (pull_solr _ _); rewrite H', H; constructor.
Qed.

Lemma while_loop_reaches (l : locals) :
  reaches trigger (gs l) (trigger_of (while_loop trigger l)).
Proof.
  apply (while_loop_iterations (fun l f => reaches trigger (gs l) (trigger_of f))).
  - intros l0 f H. pose proof (loop_body_reaches l0) as R. now rewrite H in R.
  - intros l0 l' f H IH. pose proof (loop_body_reaches l0) as R. rewrite H in R.
    eapply reaches_trans; eauto.
Qed.

Lemma try_block_reaches (ri solr : generator) (g : gsearch) :
  reaches trigger g (trigger_of (try_block trigger ri solr g)).
Proof.
  unfold try_block.
  destruct (next ri); try constructor.
  destruct (next solr); try constructor.
  apply (while_loop_reaches (mkLocals _ _ _ _ _)).
Qed.

(** Neither [for] loop gets as far as its call of [update_pid]. *)
Lemma for_leftover_spec (items : list record) (fin : ending) (g : gsearch) :
  for_leftover trigger items fin g =
  (g, match items with
      | [] => match fin with StopIteration => None | Raise e => Some e end
      | _ :: _ => Some (NameError "logger")
      end).
Proof. destruct items as [|[pid t] rest], fin; reflexivity. Qed.

Lemma reconcile_trigger_state (ri solr : generator) :
  trigger_state (reconcile trigger ri solr) =
  trigger_of (try_block trigger ri solr gsearch_init).
Proof.
  unfold reconcile.
  destruct (try_block _ _ _ _) as [ri' solr' g|e g]; [|reflexivity].
  rewrite !for_leftover_spec.
  destruct (pending ri'), (finish ri'), (pending solr'), (finish solr'); reflexivity.
Qed.

Lemma reconcile_reaches (ri solr : generator) :
  reaches trigger gsearch_init (trigger_state (reconcile trigger ri solr)).
Proof. rewrite reconcile_trigger_state. apply try_block_reaches. Qed.

Lemma reaches_consistent (g g' : gsearch) :
  reaches trigger g g' -> consistent g -> consistent g'.
Proof. induction 1; auto using consistent_update_pid. Qed.

Lemma reaches_updated (g g' : gsearch) :
  reaches trigger g g' -> updated g = true -> updated g' = true.
Proof. induction 1; auto using update_pid_updated. Qed.

Lemma reaches_requests (g g' : gsearch) :
  reaches trigger g g' -> exists more, requests g' = requests g ++ more.
Proof.
  induction 1 as [|g' pid _ [more IH]].
  - exists []. now rewrite app_nil_r.
  - exists (more ++ [pid]). now rewrite update_pid_requests, IH, app_assoc.
Qed.

(** How a run ends, by its trigger object: [exit(1)] or [exit(0)] by the
    flag, unless an exception got away. *)
Lemma reconcile_ended (ri solr : generator) :
  let r := reconcile trigger ri solr in
  (exists e, ended r = Traceback e) \/
  ended r = (if updated (trigger_state r) then Exit 1 else Exit 0).
Proof.
  unfold reconcile.
  destruct (try_block _ _ _ _) as [ri' solr' g|e g];
    [|left; eexists; reflexivity].
  rewrite !for_leftover_spec.
  destruct (pending ri'), (finish ri'), (pending solr'), (finish solr'); cbn;
    solve [left; eexists; reflexivity | right; reflexivity].
Qed.

(** The exit status against the requests sent and the way the run ended. *)
Lemma reconcile_exit_status (ri solr : generator) :
  let r := reconcile trigger ri solr in
  (exit_status (ended r) = 0 <->
     requests (trigger_state r) = [] /\ (forall e, ended r <> Traceback e)) /\
  (exit_status (ended r) = 1 <->
     requests (trigger_state r) <> [] \/ (exists e, ended r = Traceback e)).
Proof.
  intros r.
  pose proof (reaches_consistent _ _ (reconcile_reaches ri solr) consistent_init) as Hc.
  fold r in Hc. unfold consistent in Hc.
  destruct (reconcile_ended ri solr) as [[e He]|He]; fold r in He.
  - rewrite He; cbn. split; split.
    + discriminate.
    + intros [_ H]. now elim (H e).
    + eauto.
    + reflexivity.
  - rewrite He, Hc.
    destruct (requests (trigger_state r)) as [|p ps]; cbn; split; split;
      try discriminate; try reflexivity; try tauto.
    + intros _. split; [reflexivity|discriminate].
    + intros [H|[e H]]; [now elim H|discriminate].
    + intros [H _]. discriminate.
    + intros _. left. discriminate.
Qed.

End Loop.

(** The same for the whole script: when line 183 raises, nothing was
    requested and the run ends with a traceback. *)
Lemma main_exit_status (trigger : nat -> string -> Z) (os : platform)
    (args : arguments) (now : Z) (ri_service solr_service : service) :
  (exit_status (ended (main trigger os args now ri_service solr_service)) = 0 <->
     requests (trigger_state (main trigger os args now ri_service solr_service)) = [] /\
     (forall e, ended (main trigger os args now ri_service solr_service)
                <> Traceback e)) /\
  (exit_status (ended (main trigger os args now ri_service solr_service)) = 1 <->
     requests (trigger_state (main trigger os args now ri_service solr_service)) <> [] \/
     (exists e, ended (main trigger os args now ri_service solr_service)
                = Traceback e)).
Proof.
  unfold main. destruct (window_start os (switch args) now) as [start|e].
  - apply (reconcile_exit_status trigger).
  - cbn. split; split.
    + discriminate.
    + intros [_ H]. now elim (H e).
    + intros _. right. now exists e.
    + reflexivity.
Qed.

(** ** What the merge loop flags *)

Section Flags.

Variable trigger : nat -> string -> Z.

Lemma flagged_cons (a : record) (A : list record) (b : record) (B : list record) :
  flagged (a :: A) (b :: B) =
  if key_ltb a b then a :: flagged A (b :: B)
  else if key_ltb b a then b :: flagged (a :: A) B
  else flagged A B.
Proof. reflexivity. Qed.

Lemma flagged_nil_r (A : list record) : flagged A [] = [].
Proof. destruct A; reflexivity. Qed.

Lemma flagged_nil_l (B : list record) : flagged [] B = [].
Proof. destruct B; reflexivity. Qed.

Lemma key_ltb_irrefl (a : record) : key_ltb a a = false.
Proof.
  destruct (key_ltb a a) eqn:E; [|reflexivity]. now elim (key_lt_irrefl a).
Qed.

Lemma pull_ri_cases (l : locals) (g : gsearch) :
  (pending (ri l) = [] /\
   exists f, pull_ri l g = Done f /\ trigger_of f = g)
  \/
  (exists a' A',
      pending (ri l) = a' :: A' /\
      pull_ri l g =
        Again (mkLocals (mkGenerator A' (finish (ri l))) (solr l) g a' (solr_result l))).
Proof.
  unfold pull_ri, next. destruct (pending (ri l)) as [|a' A'].
  - left. split; [reflexivity|]. destruct (finish (ri l)); eexists; split; reflexivity.
  - right. now exists a', A'.
Qed.

Lemma pull_solr_cases (l : locals) (g : gsearch) :
  (pending (solr l) = [] /\
   exists f, pull_solr l g = Done f /\ trigger_of f = g)
  \/
  (exists b' B',
      pending (solr l) = b' :: B' /\
      pull_solr l g =
        Again (mkLocals (ri l) (mkGenerator B' (finish (solr l))) g (ri_result l) b')).
Proof.
  unfold pull_solr, next. destruct (pending (solr l)) as [|b' B'].
  - left. split; [reflexivity|]. destruct (finish (solr l)); eexists; split; reflexivity.
  - right. now exists b', B'.
Qed.

(** The requests the loop adds are the PIDs of the records [flagged] lists,
    in its order. *)
Lemma while_loop_flags (l : locals) :
  requests (trigger_of (while_loop trigger l)) =
  requests (gs l) ++
  map fst (flagged (ri_result l :: pending (ri l))
                   (solr_result l :: pending (solr l))).
Proof.
  apply (while_loop_iterations trigger
           (fun l f =>
              requests (trigger_of f) =
              requests (gs l) ++
              map fst (flagged (ri_result l :: pending (ri l))
                               (solr_result l :: pending (solr l)))));
    clear l.
  - (* the iteration that leaves the loop *)
    intros l f H. rewrite flagged_cons.
    destruct (loop_body_cases trigger l) as [[Hlt E]|[(Hge & Hlt & E)|[Heq E]]];
      rewrite E in H; clear E.
    + rewrite Hlt.
      destruct (pull_ri_cases l (update_pid trigger (gs l) (fst (ri_result l))))
        as [(Hnil & f' & E & Hg)|(a' & A' & _ & E)]; rewrite E in H; [|discriminate].
      inversion H; subst f'.
      rewrite Hg, update_pid_requests, Hnil, flagged_nil_l. reflexivity.
    + rewrite Hge, Hlt.
      destruct (pull_solr_cases l (update_pid trigger (gs l) (fst (solr_result l))))
        as [(Hnil & f' & E & Hg)|(b' & B' & _ & E)]; rewrite E in H; [|discriminate].
      inversion H; subst f'. rewrite Hg, update_pid_requests, Hnil, flagged_nil_r.
      reflexivity.
    + rewrite Heq, key_ltb_irrefl.
      destruct (pull_ri_cases l (gs l))
        as [(Hnil & f' & E & Hg)|(a' & A' & Ha & E)]; rewrite E in H.
      * inversion H; subst f'. rewrite Hg, Hnil, flagged_nil_l. cbn.
        now rewrite app_nil_r.
      * match type of H with
        | pull_solr ?l1 ?g1 = _ =>
            destruct (pull_solr_cases l1 g1)
              as [(Hnil & f' & E' & Hg)|(b' & B' & _ & E')]; rewrite E' in H;
              [|discriminate]
        end.
        inversion H; subst f'. cbn [solr gs] in Hnil, Hg.
        rewrite Hg, Hnil, flagged_nil_r. cbn. now rewrite app_nil_r.
  - (* an iteration that goes round again *)
    intros l l' f H IH. rewrite flagged_cons, IH. clear IH.
    destruct (loop_body_cases trigger l) as [[Hlt E]|[(Hge & Hlt & E)|[Heq E]]];
      rewrite E in H; clear E.
    + rewrite Hlt.
      destruct (pull_ri_cases l (update_pid trigger (gs l) (fst (ri_result l))))
        as [(_ & f' & E & _)|(a' & A' & Ha & E)]; rewrite E in H; [discriminate|].
      inversion H; subst l'. cbn [gs ri solr ri_result solr_result pending].
      rewrite update_pid_requests, Ha, <- app_assoc. reflexivity.
    + rewrite Hge, Hlt.
      destruct (pull_solr_cases l (update_pid trigger (gs l) (fst (solr_result l))))
        as [(_ & f' & E & _)|(b' & B' & Hb & E)]; rewrite E in H; [discriminate|].
      inversion H; subst l'. cbn [gs ri solr ri_result solr_result pending].
      rewrite update_pid_requests, Hb, <- app_assoc. reflexivity.
    + rewrite Heq, key_ltb_irrefl.
      destruct (pull_ri_cases l (gs l))
        as [(_ & f' & E & _)|(a' & A' & Ha & E)]; rewrite E in H; [discriminate|].
      match type of H with
      | pull_solr ?l1 ?g1 = _ =>
          destruct (pull_solr_cases l1 g1)
            as [(_ & f' & E' & _)|(b' & B' & Hb & E')]; rewrite E' in H;
            [discriminate|]
      end.
      inversion H; subst l'. cbn [gs ri solr ri_result solr_result pending] in *.
      rewrite Ha, Hb. reflexivity.
Qed.

(** The requests of a whole run on two streams. *)
Lemma reconcile_flags (ri solr : generator) :
  requests (trigger_state (reconcile trigger ri solr)) =
  map fst (flagged (pending ri) (pending solr)).
Proof.
  rewrite reconcile_trigger_state. unfold try_block, next.
  destruct (pending ri) as [|a A].
  { rewrite flagged_nil_l. destruct (finish ri); reflexivity. }
  destruct (pending solr) as [|b B].
  { destruct (finish solr); reflexivity. }
  now rewrite while_loop_flags.
Qed.

End Flags.

(** ** The flagged records of two sorted streams *)

Section Flagged_sorted.

(** Reasoning along the decisions of the merge. *)
Lemma flagged_cases (P : list record -> list record -> list record -> Prop) :
  (forall B, P [] B []) ->
  (forall A, P A [] []) ->
  (forall a A b B,
      key_lt a b ->
      P A (b :: B) (flagged A (b :: B)) ->
      P (a :: A) (b :: B) (a :: flagged A (b :: B))) ->
  (forall a A b B,
      key_lt b a ->
      P (a :: A) B (flagged (a :: A) B) ->
      P (a :: A) (b :: B) (b :: flagged (a :: A) B)) ->
  (forall a A B,
      P A B (flagged A B) ->
      P (a :: A) (a :: B) (flagged A B)) ->
  forall A B, P A B (flagged A B).
Proof.
  intros Hl Hr Hlt Hgt Heq.
  induction A as [|a A IHA]; intros B; [rewrite flagged_nil_l; apply Hl|].
  induction B as [|b B IHB]; [apply Hr|].
  rewrite flagged_cons.
  destruct (key_ltb a b) eqn:Eab; [now apply Hlt|].
  destruct (key_ltb b a) eqn:Eba; [now apply Hgt|].
  rewrite (key_ltb_total a b Eab Eba). apply Heq, IHA.
Qed.

Lemma strict_head (a : record) (s : list record) :
  StronglySorted key_lt (a :: s) -> forall x, In x s -> key_lt a x.
Proof.
  intros H. apply StronglySorted_inv in H. destruct H as [_ H].
  now rewrite Forall_forall in H.
Qed.

Lemma strict_tail (a : record) (s : list record) :
  StronglySorted key_lt (a :: s) -> StronglySorted key_lt s.
Proof. intros H. now apply StronglySorted_inv in H. Qed.

(** Below the head of a strictly increasing stream nothing is in it. *)
Lemma strict_below (a b : record) (s : list record) :
  StronglySorted key_lt (b :: s) -> key_lt a b -> forall x, In x (b :: s) -> key_lt a x.
Proof.
  intros Hs Hab x [<-|Hx]; [assumption|].
  eapply key_lt_trans; [eassumption|]. eapply strict_head; eassumption.
Qed.

Lemma strict_not_in_tail (a : record) (s : list record) :
  StronglySorted key_lt (a :: s) -> ~ In a s.
Proof. intros Hs Hin. exact (key_lt_irrefl a (strict_head a s Hs a Hin)). Qed.

Lemma flagged_in (A B : list record) :
  forall r, In r (flagged A B) -> In r A \/ In r B.
Proof.
  apply (flagged_cases (fun A B F => forall r, In r F -> In r A \/ In r B));
    cbn; intros; intuition.
  - destruct (H0 r H2); intuition.
  - destruct (H0 r H2); intuition.
  - destruct (H r H0); intuition.
Qed.

(** Only records of the symmetric difference are flagged. *)
Lemma flagged_sound (A B : list record) :
  StronglySorted key_lt A -> StronglySorted key_lt B ->
  forall r, In r (flagged A B) ->
            (In r A /\ ~ In r B) \/ (In r B /\ ~ In r A).
Proof.
  apply (flagged_cases
           (fun A B F =>
              StronglySorted key_lt A -> StronglySorted key_lt B ->
              forall r, In r F -> (In r A /\ ~ In r B) \/ (In r B /\ ~ In r A)));
    clear A B.
  - intros B _ _ r [].
  - intros A _ _ r [].
  - intros a A b B Hab IH HA HB r [<-|Hr].
    + left. split; [now left|].
      intros Hin. exact (key_lt_irrefl _ (strict_below _ _ _ HB Hab _ Hin)).
    + destruct (IH (strict_tail _ _ HA) HB r Hr) as [[H1 H2]|[H1 H2]].
      * left. split; [now right|assumption].
      * right. split; [assumption|].
        intros [->|Hin]; [|contradiction].
        exact (key_lt_irrefl _ (strict_below _ _ _ HB Hab _ H1)).
  - intros a A b B Hba IH HA HB r [<-|Hr].
    + right. split; [now left|].
      intros Hin. exact (key_lt_irrefl _ (strict_below _ _ _ HA Hba _ Hin)).
    + destruct (IH HA (strict_tail _ _ HB) r Hr) as [[H1 H2]|[H1 H2]].
      * left. split; [assumption|].
        intros [->|Hin]; [|contradiction].
        exact (key_lt_irrefl _ (strict_below _ _ _ HA Hba _ H1)).
      * right. split; [now right|assumption].
  - intros a A B IH HA HB r Hr.
    destruct (IH (strict_tail _ _ HA) (strict_tail _ _ HB) r Hr) as [[H1 H2]|[H1 H2]].
    + left. split; [now right|].
      intros [->|Hin]; [|contradiction]. exact (strict_not_in_tail _ _ HA H1).
    + right. split; [now right|].
      intros [->|Hin]; [|contradiction]. exact (strict_not_in_tail _ _ HB H1).
Qed.

(** The flagged records come out in strictly increasing order. *)
Lemma flagged_strict (A B : list record) :
  StronglySorted key_lt A -> StronglySorted key_lt B ->
  StronglySorted key_lt (flagged A B).
Proof.
  apply (flagged_cases
           (fun A B F =>
              StronglySorted key_lt A -> StronglySorted key_lt B ->
              StronglySorted key_lt F));
    clear A B.
  - constructor.
  - constructor.
  - intros a A b B Hab IH HA HB. constructor; [apply IH; eauto using strict_tail|].
    rewrite Forall_forall. intros x Hx.
    destruct (flagged_in _ _ _ Hx) as [H|H].
    + exact (strict_head _ _ HA _ H).
    + exact (strict_below _ _ _ HB Hab _ H).
  - intros a A b B Hba IH HA HB. constructor; [apply IH; eauto using strict_tail|].
    rewrite Forall_forall. intros x Hx.
    destruct (flagged_in _ _ _ Hx) as [H|H].
    + exact (strict_below _ _ _ HA Hba _ H).
    + exact (strict_head _ _ HB _ H).
  - intros a A B IH HA HB. apply IH; eauto using strict_tail.
Qed.

(** A record of one stream alone is flagged as long as the other stream has
    a record above it. *)
Lemma flagged_complete (A B : list record) :
  StronglySorted key_lt A -> StronglySorted key_lt B ->
  forall r,
    (In r A /\ ~ In r B /\ (exists b, In b B /\ key_lt r b)) \/
    (In r B /\ ~ In r A /\ (exists a, In a A /\ key_lt r a)) ->
    In r (flagged A B).
Proof.
  apply (flagged_cases
           (fun A B F =>
              StronglySorted key_lt A -> StronglySorted key_lt B ->
              forall r,
                (In r A /\ ~ In r B /\ (exists b, In b B /\ key_lt r b)) \/
                (In r B /\ ~ In r A /\ (exists a, In a A /\ key_lt r a)) ->
                In r F));
    clear A B.
  - intros B _ _ r [([] & _)|(_ & _ & a & [] & _)].
  - intros A _ _ r [(_ & _ & b & [] & _)|([] & _)].
  - intros a A b B Hab IH HA HB r [(Hin & Hout & x & Hx & Hrx)|(Hin & Hout & x & Hx & Hrx)].
    + destruct Hin as [<-|Hin]; [now left|]. right.
      apply (IH (strict_tail _ _ HA) HB). left. eauto.
    + right. apply (IH (strict_tail _ _ HA) HB). right.
      split; [assumption|]. split; [intros H; apply Hout; now right|].
      destruct Hx as [<-|Hx]; [|eauto].
      elim (key_lt_asym _ _ Hrx). exact (strict_below _ _ _ HB Hab _ Hin).
  - intros a A b B Hba IH HA HB r [(Hin & Hout & x & Hx & Hrx)|(Hin & Hout & x & Hx & Hrx)].
    + right. apply (IH HA (strict_tail _ _ HB)). left.
      split; [assumption|]. split; [intros H; apply Hout; now right|].
      destruct Hx as [<-|Hx]; [|eauto].
      elim (key_lt_asym _ _ Hrx). exact (strict_below _ _ _ HA Hba _ Hin).
    + destruct Hin as [<-|Hin]; [now left|]. right.
      apply (IH HA (strict_tail _ _ HB)). right. eauto.
  - intros a A B IH HA HB r [(Hin & Hout & x & Hx & Hrx)|(Hin & Hout & x & Hx & Hrx)].
    + apply (IH (strict_tail _ _ HA) (strict_tail _ _ HB)). left.
      destruct Hin as [<-|Hin]; [elim Hout; now left|].
      split; [assumption|]. split; [intros H; apply Hout; now right|].
      destruct Hx as [<-|Hx]; [|eauto].
      elim (key_lt_asym _ _ Hrx). exact (strict_head _ _ HA _ Hin).
    + apply (IH (strict_tail _ _ HA) (strict_tail _ _ HB)). right.
      destruct Hin as [<-|Hin]; [elim Hout; now left|].
      split; [assumption|]. split; [intros H; apply Hout; now right|].
      destruct Hx as [<-|Hx]; [|eauto].
      elim (key_lt_asym _ _ Hrx). exact (strict_head _ _ HB _ Hin).
Qed.

End Flagged_sorted.

(** ** Exit status, trigger flag, tie-break and runs on small streams *)

(** Two copies of one stream are consumed in step, pair by pair, and the
    script ends by [exit(0)] with the trigger untouched. *)
Lemma while_loop_same (trigger : nat -> string -> Z) (S : list record) :
  forall (s : record) (g : gsearch),
    while_loop trigger
      (mkLocals (mkGenerator S StopIteration) (mkGenerator S StopIteration) g s s)
    = Caught (mkGenerator [] StopIteration) (mkGenerator [] StopIteration) g.
Proof.
  induction S as [|s' S IH]; intros [p t] g; rewrite while_loop_step;
    unfold loop_body; cbn [ri_result solr_result];
    rewrite Z.ltb_irrefl, string_ltb_irrefl.
  - reflexivity.
  - cbn. apply IH.
Qed.

Lemma reconcile_same (trigger : nat -> string -> Z) (S : list record) :
  reconcile_streams trigger S S = mkRun (Exit 0) gsearch_init.
Proof.
  unfold reconcile_streams, reconcile, try_block.
  destruct S as [|s S]; [reflexivity|].
  cbn [next pending finish]. now rewrite while_loop_same.
Qed.

Section Claims_driver.

Variable trigger : nat -> string -> Z.

(** C6.  The exit status of a run is 0 exactly when the trigger was never
    invoked and no exception ended the run, and 1 exactly when the trigger
    was invoked at least once or an exception ended the run.  This holds for
    whatever the two generators yield and however they end, and so for the
    script on every platform, command line, clock and pair of query
    services. *)
Theorem exit_status_reflects_trigger_and_errors :
  (forall ri solr : generator,
      (exit_status (ended (reconcile trigger ri solr)) = 0 <->
         requests (trigger_state (reconcile trigger ri solr)) = [] /\
         (forall e, ended (reconcile trigger ri solr) <> Traceback e)) /\
      (exit_status (ended (reconcile trigger ri solr)) = 1 <->
         requests (trigger_state (reconcile trigger ri solr)) <> [] \/
         (exists e, ended (reconcile trigger ri solr) = Traceback e))) /\
  (forall (os : platform) (args : arguments) (now : Z)
          (ri_service solr_service : service),
      (exit_status (ended (main trigger os args now ri_service solr_service)) = 0 <->
         requests (trigger_state (main trigger os args now ri_service solr_service)) = [] /\
         (forall e, ended (main trigger os args now ri_service solr_service)
                    <> Traceback e)) /\
      (exit_status (ended (main trigger os args now ri_service solr_service)) = 1 <->
         requests (trigger_state (main trigger os args now ri_service solr_service)) <> [] \/
         (exists e, ended (main trigger os args now ri_service solr_service)
                    = Traceback e))).
Proof.
  split.
  - intros ri solr. exact (reconcile_exit_status trigger ri solr).
  - intros os args now ri_service solr_service.
    exact (main_exit_status trigger os args now ri_service solr_service).
Qed.

(** C10.  The [updated] flag starts out false; [update_pid] sets it before
    the request goes out (the request is issued from a state in which the
    flag is already set and no request of this call has been recorded), it
    is true after [update_pid] whatever status the trigger answers, and
    nothing resets it: calls of [update_pid] keep it set, and a run changes
    the trigger object by such calls only.  So a run in which the trigger was
    called at least once exits with status 1, also when every notification
    fails. *)
Theorem updated_flag_is_monotone :
  updated gsearch_init = false /\
  (forall g pid,
      update_pid trigger g pid = notify trigger (mark_updated g) pid /\
      updated (mark_updated g) = true /\
      requests (mark_updated g) = requests g) /\
  (forall g pid, updated (update_pid trigger g pid) = true) /\
  (forall g g', reaches trigger g g' -> updated g = true -> updated g' = true) /\
  (forall ri solr,
      reaches trigger gsearch_init (trigger_state (reconcile trigger ri solr))) /\
  (forall ri solr,
      requests (trigger_state (reconcile trigger ri solr)) <> [] ->
      updated (trigger_state (reconcile trigger ri solr)) = true /\
      exit_status (ended (reconcile trigger ri solr)) = 1).
Proof.
  split; [reflexivity|].
  split.
  { intros g pid. split; [reflexivity|].
    unfold mark_updated. destruct (updated g) eqn:E; cbn; auto. }
  split; [apply update_pid_updated|].
  split; [apply reaches_updated|].
  split; [apply reconcile_reaches|].
  intros ri solr Hreq. split.
  - pose proof (reaches_consistent trigger _ _ (reconcile_reaches trigger ri solr)
                  consistent_init) as Hc.
    unfold consistent in Hc. rewrite Hc.
    destruct (requests _); [now elim Hreq|reflexivity].
  - apply (reconcile_exit_status trigger ri solr). now left.
Qed.

(** C8.  When the two current records carry the same timestamp and different
    PIDs, one PID is smaller than the other, and the body of the loop calls
    [update_pid] with the smaller one, which adds one request for it, and
    then calls [next] on the generator of the side that holds it: the record
    that generator yields becomes the current record of that side, and if it
    has none the loop is left through [StopIteration] (or through the
    exception the generator raises).  The generator and the current record of
    the other side are left as they are. *)
Theorem tie_break_by_identifier (l : locals) :
  snd (ri_result l) = snd (solr_result l) ->
  fst (ri_result l) <> fst (solr_result l) ->
  ((fst (ri_result l) <? fst (solr_result l))%string = true /\
   requests (update_pid trigger (gs l) (fst (ri_result l))) =
     requests (gs l) ++ [fst (ri_result l)] /\
   loop_body trigger l =
     match next (ri l) with
     | Yield r it =>
         Again (mkLocals it (solr l)
                  (update_pid trigger (gs l) (fst (ri_result l)))
                  r (solr_result l))
     | Exhausted it =>
         Done (Caught it (solr l)
                 (update_pid trigger (gs l) (fst (ri_result l))))
     | Raised e _ =>
         Done (Uncaught e (update_pid trigger (gs l) (fst (ri_result l))))
     end)
  \/
  ((fst (solr_result l) <? fst (ri_result l))%string = true /\
   requests (update_pid trigger (gs l) (fst (solr_result l))) =
     requests (gs l) ++ [fst (solr_result l)] /\
   loop_body trigger l =
     match next (solr l) with
     | Yield r it =>
         Again (mkLocals (ri l) it
                  (update_pid trigger (gs l) (fst (solr_result l)))
                  (ri_result l) r)
     | Exhausted it =>
         Done (Caught (ri l) it
                 (update_pid trigger (gs l) (fst (solr_result l))))
     | Raised e _ =>
         Done (Uncaught e (update_pid trigger (gs l) (fst (solr_result l))))
     end).
Proof.
  intros Ht Hp.
  unfold loop_body, pull_ri, pull_solr.
  destruct (ri_result l) as [p1 t1] eqn:Ea, (solr_result l) as [p2 t2] eqn:Eb;
    cbn [fst snd] in *.
  subst t2. rewrite Z.ltb_irrefl.
  destruct (p1 <? p2)%string eqn:P12.
  - left. split; [reflexivity|]. split; [apply update_pid_requests|].
    destruct (next (ri l)); rewrite ?Eb; reflexivity.
  - destruct (p2 <? p1)%string eqn:P21.
    + right. split; [reflexivity|]. split; [apply update_pid_requests|].
      destruct (next (solr l)); rewrite ?Ea; reflexivity.
    + elim Hp. now apply string_ltb_total.
Qed.

(** C9.  Run on two copies of one stream, whatever the stream, the
    reconciler calls the trigger not once and calls [exit(0)], leaving the
    trigger object as it was created; a second run on the same, unmodified
    stream does the same, however the trigger would answer then.  The streams
    [(x, t1)] and [(x, t1)] are an instance. *)
Theorem identical_streams_flag_nothing
    (trigger_again : nat -> string -> Z) (S : list record) :
  reconcile_streams trigger S S = mkRun (Exit 0) gsearch_init /\
  reconcile_streams trigger_again S S = mkRun (Exit 0) gsearch_init /\
  requests (trigger_state (reconcile_streams trigger S S)) = [] /\
  requests (trigger_state (reconcile_streams trigger_again S S)) = [] /\
  exit_status (ended (reconcile_streams trigger S S)) = 0 /\
  exit_status (ended (reconcile_streams trigger_again S S)) = 0.
Proof.
  rewrite !reconcile_same. repeat split.
Qed.

(** C4, the run the claim describes.  With the catalog stream [(x, t1)] and
    an empty Solr stream the first [ri.next()] takes the record out of the
    generator, [solr.next()] raises [StopIteration], and the [for] loop over
    [ri] finds nothing left: the trigger is never called and the script
    calls [exit(0)]. *)
Theorem single_catalog_record_is_dropped (x : string) (t1 : timestamp) :
  reconcile_streams trigger [(x, t1)] [] = mkRun (Exit 0) gsearch_init.
Proof. reflexivity. Qed.

(** C2, the runs the claim describes.  When the Solr stream is empty the
    first catalog record is pulled and forgotten, and the [for] loop stops
    with [NameError] at the next one before it reaches [update_pid]; when
    the catalog stream is empty the [for] loop over [solr] stops the same
    way at the first record.  No leftover record is ever handed to the
    trigger. *)
Theorem leftover_records_are_not_flagged (r : record) (rest : list record) :
  reconcile_streams trigger (r :: rest) [] =
    mkRun (match rest with
           | [] => Exit 0
           | _ :: _ => Traceback (NameError "logger")
           end) gsearch_init /\
  reconcile_streams trigger [] (r :: rest) =
    mkRun (Traceback (NameError "logger")) gsearch_init.
Proof. destruct r as [p t], rest as [|[p' t'] rest]; split; reflexivity. Qed.

End Claims_driver.

(** The flag after a run in which every notification is rejected. *)
Lemma updated_flag_is_monotone_witness :
  requests (trigger_state
              (reconcile trigger_rejecting
                 (mkGenerator stream_x1_z5 StopIteration)
                 (mkGenerator stream_x3_z5 StopIteration))) <> [] /\
  updated (trigger_state
             (reconcile trigger_rejecting
                (mkGenerator stream_x1_z5 StopIteration)
                (mkGenerator stream_x3_z5 StopIteration))) = true /\
  exit_status (ended
                 (reconcile trigger_rejecting
                    (mkGenerator stream_x1_z5 StopIteration)
                    (mkGenerator stream_x3_z5 StopIteration))) = 1.
Proof.
  assert (H : requests (trigger_state
                          (reconcile trigger_rejecting
                             (mkGenerator stream_x1_z5 StopIteration)
                             (mkGenerator stream_x3_z5 StopIteration))) <> [])
    by (vm_compute; discriminate).
  split; [exact H|].
  destruct (updated_flag_is_monotone trigger_rejecting)
    as (_ & _ & _ & _ & _ & Hrun).
  exact (Hrun _ _ H).
Defined.

(** The tie-break at [(a, 1)] against [(b, 1)], with [(c, 2)] still to come
    from the catalog and [(d, 3)] from Solr: [a] is requested, the catalog
    moves on to [(c, 2)], and Solr stays at [(b, 1)] with [(d, 3)] pending. *)
Lemma tie_break_by_identifier_witness :
  snd (ri_result locals_at_tie_then_more) = snd (solr_result locals_at_tie_then_more) /\
  fst (ri_result locals_at_tie_then_more) <> fst (solr_result locals_at_tie_then_more) /\
  loop_body trigger_accepting locals_at_tie_then_more =
    Again (mkLocals (mkGenerator [] StopIteration)
                    (mkGenerator [("d"%string, 3)] StopIteration)
                    (mkGsearch true ["a"%string] ["a"%string])
                    ("c"%string, 2) ("b"%string, 1)) /\
  (((fst (ri_result locals_at_tie_then_more)
     <? fst (solr_result locals_at_tie_then_more))%string = true /\
    requests (update_pid trigger_accepting (gs locals_at_tie_then_more)
                (fst (ri_result locals_at_tie_then_more))) =
      requests (gs locals_at_tie_then_more)
      ++ [fst (ri_result locals_at_tie_then_more)] /\
    loop_body trigger_accepting locals_at_tie_then_more =
      match next (ri locals_at_tie_then_more) with
      | Yield r it =>
          Again (mkLocals it (solr locals_at_tie_then_more)
                   (update_pid trigger_accepting (gs locals_at_tie_then_more)
                      (fst (ri_result locals_at_tie_then_more)))
                   r (solr_result locals_at_tie_then_more))
      | Exhausted it =>
          Done (Caught it (solr locals_at_tie_then_more)
                  (update_pid trigger_accepting (gs locals_at_tie_then_more)
                     (fst (ri_result locals_at_tie_then_more))))
      | Raised e _ =>
          Done (Uncaught e
                  (update_pid trigger_accepting (gs locals_at_tie_then_more)
                     (fst (ri_result locals_at_tie_then_more))))
      end)
   \/
   ((fst (solr_result locals_at_tie_then_more)
     <? fst (ri_result locals_at_tie_then_more))%string = true /\
    requests (update_pid trigger_accepting (gs locals_at_tie_then_more)
                (fst (solr_result locals_at_tie_then_more))) =
      requests (gs locals_at_tie_then_more)
      ++ [fst (solr_result locals_at_tie_then_more)] /\
    loop_body trigger_accepting locals_at_tie_then_more =
      match next (solr locals_at_tie_then_more) with
      | Yield r it =>
          Again (mkLocals (ri locals_at_tie_then_more) it
                   (update_pid trigger_accepting (gs locals_at_tie_then_more)
                      (fst (solr_result locals_at_tie_then_more)))
                   (ri_result locals_at_tie_then_more) r)
      | Exhausted it =>
          Done (Caught (ri locals_at_tie_then_more) it
                  (update_pid trigger_accepting (gs locals_at_tie_then_more)
                     (fst (solr_result locals_at_tie_then_more))))
      | Raised e _ =>
          Done (Uncaught e
                  (update_pid trigger_accepting (gs locals_at_tie_then_more)
                     (fst (solr_result locals_at_tie_then_more))))
      end)).
Proof.
  split; [reflexivity|].
  split; [discriminate|].
  split; [reflexivity|].
  apply (tie_break_by_identifier trigger_accepting locals_at_tie_then_more);
    [reflexivity|discriminate].
Defined.

(** ** The merge as a whole *)

Section Claims_merge.

Variable trigger : nat -> string -> Z.

(** C1, as amended.  For two correctly sorted streams without repeated
    records, the PIDs handed to the trigger are those of a list of records
    in strictly ascending (timestamp, PID) order, so no record is flagged
    twice; every one of them is in exactly one of the two streams, so a
    record that both streams hold with the same timestamp is never flagged;
    and every record of one stream alone that lies below some record of the
    other stream is in the list.  An identifier that the streams hold with
    different timestamps is flagged once for each of its two records. *)
Theorem merge_flags_symmetric_difference (A B : list record) :
  ascending A -> NoDup A -> ascending B -> NoDup B ->
  exists F : list record,
    requests (trigger_state (reconcile_streams trigger A B)) = map fst F /\
    StronglySorted key_lt F /\
    (forall r, In r F -> (In r A /\ ~ In r B) \/ (In r B /\ ~ In r A)) /\
    (forall r, In r A -> In r B -> ~ In r F) /\
    (forall r, In r A -> ~ In r B -> (exists b, In b B /\ key_lt r b) -> In r F) /\
    (forall r, In r B -> ~ In r A -> (exists a, In a A /\ key_lt r a) -> In r F).
Proof.
  intros HA HAn HB HBn.
  pose proof (ascending_strict A HA HAn) as SA.
  pose proof (ascending_strict B HB HBn) as SB.
  exists (flagged A B).
  split; [apply reconcile_flags|].
  split; [now apply flagged_strict|].
  split; [now apply flagged_sound|].
  split.
  { intros r Ha Hb Hf. destruct (flagged_sound A B SA SB r Hf) as [[_ H]|[_ H]]; auto. }
  split; intros r H1 H2 H3; apply flagged_complete; auto.
Qed.

End Claims_merge.

(** Sortedness and absence of repetitions of a stream that is written out. *)
Ltac ascending_by_evaluation :=
  repeat (apply Sorted_cons || apply Sorted_nil
          || apply HdRel_cons || apply HdRel_nil);
  left; reflexivity.

Ltac distinct_by_evaluation :=
  repeat (apply NoDup_cons || apply NoDup_nil); cbn; intuition discriminate.

(** The theorem at scenario 4 of the specification. *)
Lemma merge_flags_symmetric_difference_witness :
  ascending stream_ab /\ NoDup stream_ab /\
  ascending stream_bc /\ NoDup stream_bc /\
  exists F : list record,
    requests (trigger_state
                (reconcile_streams trigger_accepting stream_ab stream_bc))
    = map fst F /\
    StronglySorted key_lt F /\
    (forall r, In r F ->
               (In r stream_ab /\ ~ In r stream_bc) \/
               (In r stream_bc /\ ~ In r stream_ab)) /\
    (forall r, In r stream_ab -> In r stream_bc -> ~ In r F) /\
    (forall r, In r stream_ab -> ~ In r stream_bc ->
               (exists b, In b stream_bc /\ key_lt r b) -> In r F) /\
    (forall r, In r stream_bc -> ~ In r stream_ab ->
               (exists a, In a stream_ab /\ key_lt r a) -> In r F).
Proof.
  assert (HA : ascending stream_ab) by ascending_by_evaluation.
  assert (HB : ascending stream_bc) by ascending_by_evaluation.
  assert (HAn : NoDup stream_ab) by distinct_by_evaluation.
  assert (HBn : NoDup stream_bc) by distinct_by_evaluation.
  repeat (split; [assumption|]).
  exact (merge_flags_symmetric_difference trigger_accepting
           stream_ab stream_bc HA HAn HB HBn).
Defined.

(** C1 as stated fails on the streams [(x, 1); (z, 5)] and [(x, 3); (z, 5)],
    both sorted and free of repetitions: [x] is in both with different
    timestamps and is handed to the trigger twice, not once. *)
Lemma identifier_with_two_timestamps_is_flagged_twice :
  ascending stream_x1_z5 /\ NoDup stream_x1_z5 /\
  ascending stream_x3_z5 /\ NoDup stream_x3_z5 /\
  In ("x"%string, 1) stream_x1_z5 /\ In ("x"%string, 3) stream_x3_z5 /\
  reconcile_streams trigger_rejecting stream_x1_z5 stream_x3_z5
  = mkRun (Exit 1) (mkGsearch true ["x"; "x"]%string []) /\
  count_occ string_dec
    (requests (trigger_state
                 (reconcile_streams trigger_rejecting stream_x1_z5 stream_x3_z5)))
    "x"%string <> 1%nat.
Proof.
  split; [ascending_by_evaluation|]. split; [distinct_by_evaluation|].
  split; [ascending_by_evaluation|]. split; [distinct_by_evaluation|].
  split; [now left|]. split; [now left|].
  split; [reflexivity|]. vm_compute. discriminate.
Qed.

(** ** The paginated sources *)

(** Rewriting with what is known of the response at hand: its status, the
    number of rows it reports and its page. *)
Ltac by_the_response :=
  repeat match goal with
         | H : page_of _ _ _ = _ |- _ => rewrite H
         | H : (_ =? _) = _ |- _ => rewrite H
         | H : Nat.eqb _ _ = _ |- _ => rewrite H
         end;
  reflexivity.

Section Sources.

Variable srv : service.
Variable limit : nat.

Lemma ri_while_step (n : nat) (f : lower_bound) :
  ri_while srv limit n f =
  if status_code srv n =? codes_ok then
    match page_of srv f limit with
    | [] => []
    | r :: page =>
        (r :: page) ++ ri_while srv limit (S n) (After (snd (last page r)))
    end
  else [].
Proof.
  funelim (ri_while srv limit n f); by_the_response.
Qed.

Lemma solr_while_step (n : nat) (f : lower_bound) :
  solr_while srv limit n f =
  if status_code srv n =? codes_ok then
    if Nat.eqb (List.length (matching srv f)) 0 then mkGenerator [] StopIteration
    else
      match page_of srv f limit with
      | [] => mkGenerator [] (Raise IndexError)
      | r :: page =>
          let rest := solr_while srv limit (S n) (After (snd (last page r))) in
          mkGenerator ((r :: page) ++ pending rest) (finish rest)
      end
  else mkGenerator [] StopIteration.
Proof.
  funelim (solr_while srv limit n f); by_the_response.
Qed.

(** Induction along the requests of a generator: a property holds of every
    request if it holds of a request whenever it holds of the request that
    follows its page. *)
Lemma cursor_induction (P : nat -> lower_bound -> Prop) :
  (forall n f,
      (forall r page,
          page_of srv f limit = r :: page ->
          P (S n) (After (snd (last page r)))) ->
      P n f) ->
  forall n f, P n f.
Proof.
  intros Hstep n f.
  remember (List.length (matching srv f)) as m eqn:Hm.
  revert n f Hm.
  induction m as [m IH] using lt_wf_ind. intros n f Hm.
  apply Hstep. intros r page Heq.
  eapply IH; [|reflexivity]. subst m.
  cursor_moves_on limit Heq.
Qed.

Lemma page_of_length (f : lower_bound) :
  (List.length (page_of srv f limit) <= limit)%nat.
Proof. apply firstn_le_length. Qed.

Lemma page_of_nil (f : lower_bound) :
  (0 < limit)%nat -> page_of srv f limit = [] -> matching srv f = [].
Proof.
  unfold page_of. destruct limit; [lia|]. now destruct (matching srv f).
Qed.

(** With a positive limit the Solr generator yields what the resource index
    generator yields from the same rows, and ends as quietly. *)
Lemma solr_while_as_ri :
  (0 < limit)%nat ->
  forall n f,
    solr_while srv limit n f = mkGenerator (ri_while srv limit n f) StopIteration.
Proof.
  intros Hl.
  apply (cursor_induction
           (fun n f => solr_while srv limit n f =
                       mkGenerator (ri_while srv limit n f) StopIteration)).
  intros n f IH.
  rewrite solr_while_step, ri_while_step.
  destruct (status_code srv n =? codes_ok); [|reflexivity].
  destruct (page_of srv f limit) as [|r page] eqn:Hp.
  - rewrite (page_of_nil f Hl Hp). reflexivity.
  - destruct (Nat.eqb (List.length (matching srv f)) 0) eqn:E.
    + apply Nat.eqb_eq, length_zero_iff_nil in E.
      unfold page_of in Hp. rewrite E, firstn_nil in Hp. discriminate.
    + cbv zeta. now rewrite (IH r page eq_refl).
Qed.

(** A request that is answered with a failure ends the generator on the
    spot, by a plain return. *)
Lemma ri_while_failed (n : nat) (f : lower_bound) :
  status_code srv n <> codes_ok -> ri_while srv limit n f = [].
Proof.
  intros H. rewrite ri_while_step.
  now replace (status_code srv n =? codes_ok) with false
    by (symmetry; now apply Z.eqb_neq).
Qed.

Lemma solr_while_failed (n : nat) (f : lower_bound) :
  status_code srv n <> codes_ok ->
  solr_while srv limit n f = mkGenerator [] StopIteration.
Proof.
  intros H. rewrite solr_while_step.
  now replace (status_code srv n =? codes_ok) with false
    by (symmetry; now apply Z.eqb_neq).
Qed.

(** When the [k]-th request fails, at most the pages of the requests before
    it are yielded. *)
Lemma ri_while_bound (k : nat) :
  status_code srv k <> codes_ok ->
  forall n f,
    (n <= k)%nat ->
    (List.length (ri_while srv limit n f) <= (k - n) * limit)%nat.
Proof.
  intros Hk. apply (cursor_induction
                      (fun n f => (n <= k)%nat ->
                                  (List.length (ri_while srv limit n f)
                                   <= (k - n) * limit)%nat)).
  intros n f IH Hn.
  rewrite ri_while_step.
  destruct (status_code srv n =? codes_ok) eqn:E; [|apply Nat.le_0_l].
  assert (n <> k) by (intros ->; apply Z.eqb_eq in E; contradiction).
  pose proof (page_of_length f) as Hlen.
  destruct (page_of srv f limit) as [|r page] eqn:Hp; [apply Nat.le_0_l|].
  rewrite length_app.
  specialize (IH r page eq_refl ltac:(lia)).
  replace (k - n)%nat with (S (k - S n)) by lia. cbn [Nat.mul]. lia.
Qed.

End Sources.

Section Sources_compared.

Variable srv : service.
Variable limit : nat.

(** What a generator yields is the beginning of what it yields when every
    request succeeds. *)
Lemma ri_while_prefix :
  forall n f,
  exists rest,
    ri_while (always_ok srv) limit n f = ri_while srv limit n f ++ rest.
Proof.
  apply (cursor_induction srv limit
           (fun n f => exists rest,
                ri_while (always_ok srv) limit n f =
                ri_while srv limit n f ++ rest)).
  intros n f IH.
  rewrite (ri_while_step srv), (ri_while_step (always_ok srv)).
  change (status_code (always_ok srv) n =? codes_ok) with true.
  change (page_of (always_ok srv) f limit) with (page_of srv f limit).
  destruct (status_code srv n =? codes_ok); [|eexists; reflexivity].
  destruct (page_of srv f limit) as [|r page] eqn:Hp; [exists []; reflexivity|].
  destruct (IH r page eq_refl) as [rest Hrest].
  exists rest. now rewrite Hrest, app_assoc.
Qed.

End Sources_compared.

(** ** Pages of a sorted listing *)

Section Pagination.

Lemma key_le_time_le (a b : record) : key_le a b -> time_le a b.
Proof.
  unfold key_le, key_lt, time_le. rewrite key_ltb_spec.
  intros [[H|[H _]]| ->]; lia.
Qed.

Lemma ascending_time_sorted (l : list record) :
  ascending l -> StronglySorted time_le l.
Proof.
  intros H. apply Sorted_StronglySorted in H; [|exact key_le_trans].
  induction H as [|a l _ IH Ha]; constructor; [assumption|].
  eapply Forall_impl; [|exact Ha]. intros b. apply key_le_time_le.
Qed.

Lemma time_sorted_filter (p : record -> bool) (l : list record) :
  StronglySorted time_le l -> StronglySorted time_le (filter p l).
Proof.
  induction 1 as [|a l _ IH Ha]; cbn; [constructor|].
  destruct (p a); [|assumption].
  constructor; [assumption|].
  rewrite Forall_forall in *. intros x Hx. apply filter_In in Hx. now apply Ha.
Qed.

Lemma time_sorted_app (pre suf : list record) :
  StronglySorted time_le (pre ++ suf) ->
  StronglySorted time_le pre /\ StronglySorted time_le suf /\
  (forall a b, In a pre -> In b suf -> time_le a b).
Proof.
  induction pre as [|x pre IH]; cbn; intros H.
  - split; [constructor|]. split; [assumption|]. intros a b [].
  - apply StronglySorted_inv in H. destruct H as [H Hx].
    destruct (IH H) as (Hpre & Hsuf & Hcross).
    rewrite Forall_forall in Hx.
    split.
    { constructor; [assumption|]. rewrite Forall_forall. intros y Hy.
      apply Hx, in_or_app. now left. }
    split; [assumption|].
    intros a b [<-|Ha] Hb; [|now apply Hcross].
    apply Hx, in_or_app. now right.
Qed.

Lemma last_cons (page : list record) (p r : record) :
  last (p :: page) r = last page p.
Proof.
  revert p r. induction page as [|q page IH]; intros p r; [reflexivity|].
  change (last (p :: q :: page) r) with (last (q :: page) r).
  now rewrite !IH.
Qed.

(** The last row of a page, by position. *)
Lemma last_nth_error (page : list record) :
  forall r, nth_error (r :: page) (List.length page) = Some (last page r).
Proof.
  induction page as [|p page IH]; intros r; [reflexivity|].
  cbn [List.length nth_error]. now rewrite IH, last_cons.
Qed.

Lemma last_in (page : list record) (r : record) : In (last page r) (r :: page).
Proof. eapply nth_error_In. apply last_nth_error. Qed.

(** In a sorted page no row is later than the last one. *)
Lemma time_sorted_last (page : list record) :
  forall r, StronglySorted time_le (r :: page) ->
            forall x, In x (r :: page) -> time_le x (last page r).
Proof.
  induction page as [|p page IH]; intros r H x Hx.
  - destruct Hx as [<-|[]]. unfold time_le; cbn; lia.
  - apply StronglySorted_inv in H. destruct H as [H Hr].
    rewrite Forall_forall in Hr.
    rewrite last_cons.
    destruct Hx as [<-|Hx]; [|now apply IH].
    unfold time_le in *. specialize (Hr _ (last_in page p)). lia.
Qed.

(** Filtering by a stricter bound can go through the looser one. *)
Lemma filter_narrow (p q : record -> bool) (l : list record) :
  (forall y, p y = true -> q y = true) ->
  filter p l = filter p (filter q l).
Proof.
  intros Hpq. induction l as [|y l IH]; [reflexivity|]. cbn.
  destruct (p y) eqn:Ep.
  - rewrite (Hpq y Ep). cbn. rewrite Ep. now f_equal.
  - destruct (q y); cbn; rewrite ?Ep; assumption.
Qed.

(** Of a sorted listing cut in two, the rows strictly after a timestamp that
    bounds the first part and lies below the head of the second are the
    second part. *)
Lemma filter_after_split (pre suf : list record) (c : timestamp) :
  StronglySorted time_le (pre ++ suf) ->
  (forall x, In x pre -> snd x <= c) ->
  (forall y, hd_error suf = Some y -> c < snd y) ->
  filter (admits (After c)) (pre ++ suf) = suf.
Proof.
  intros Hs Hpre Hhd.
  destruct (time_sorted_app _ _ Hs) as (_ & Hsuf & _).
  rewrite filter_app.
  replace (filter (admits (After c)) pre) with (@nil record).
  2:{ symmetry. clear Hs. induction pre as [|x pre IH]; [reflexivity|]. cbn.
      replace (c <? snd x) with false
        by (symmetry; apply Z.ltb_ge, Hpre; now left).
      apply IH. intros y Hy. apply Hpre. now right. }
  cbn. apply forallb_filter_id, forallb_forall. intros x Hx. cbn.
  apply Z.ltb_lt.
  destruct suf as [|y suf]; [destruct Hx|].
  specialize (Hhd y eq_refl).
  destruct Hx as [<-|Hx]; [assumption|].
  apply StronglySorted_inv in Hsuf. destruct Hsuf as [_ Hy].
  rewrite Forall_forall in Hy. specialize (Hy x Hx). unfold time_le in Hy. lia.
Qed.

Lemma tie_split_skipn (limit : nat) (m : list record) :
  (0 < limit)%nat -> tie_split limit (skipn limit m) -> tie_split limit m.
Proof.
  intros Hl (k & a & b & Hk & Ha & Hb & Hab).
  exists (S k), a, b. split; [lia|].
  rewrite nth_error_skipn in Ha, Hb.
  assert (1 <= k * limit)%nat by nia.
  replace (S k * limit - 1)%nat with (limit + (k * limit - 1))%nat by (cbn; lia).
  replace (S k * limit)%nat with (limit + k * limit)%nat by reflexivity.
  auto.
Qed.

Variable srv : service.
Variable limit : nat.
Hypothesis limit_positive : (0 < limit)%nat.
Hypothesis rows_ascending : ascending (rows srv).

(** When no page boundary splits a tie, the request after a page matches
    the rows the page left over. *)
Lemma next_matching (f : lower_bound) (r : record) (page : list record) :
  ~ tie_split limit (matching srv f) ->
  page_of srv f limit = r :: page ->
  matching srv (After (snd (last page r))) = skipn limit (matching srv f).
Proof.
  intros Hno Hp.
  set (m := matching srv f) in *.
  assert (Hm : m = (r :: page) ++ skipn limit m)
    by (rewrite <- Hp; symmetry; apply firstn_skipn).
  assert (Hs : StronglySorted time_le ((r :: page) ++ skipn limit m)).
  { rewrite <- Hm. apply time_sorted_filter, ascending_time_sorted, rows_ascending. }
  destruct (time_sorted_app _ _ Hs) as (Hpre & _ & Hcross).
  assert (Hx : In (last page r) m)
    by (rewrite Hm; apply in_or_app; left; apply last_in).
  apply filter_In in Hx. destruct Hx as [_ Hadm].
  unfold matching at 1.
  rewrite (filter_narrow _ (admits f)).
  2:{ intros y. destruct f; cbn in *; auto; rewrite ?Z.leb_le, ?Z.ltb_lt in *; lia. }
  fold (matching srv f). fold m. rewrite Hm at 1.
  apply filter_after_split; [assumption| |].
  - intros x Hx. apply (time_sorted_last page r Hpre x Hx).
  - intros y Hy.
    assert (Hle : time_le (last page r) y).
    { apply Hcross; [apply last_in|]. destruct (skipn limit m); [discriminate|].
      inversion Hy. now left. }
    rewrite hd_error_skipn in Hy.
    assert (Hlen : List.length (r :: page) = limit).
    { rewrite <- Hp. unfold page_of. fold m. apply firstn_length_le.
      assert (nth_error m limit <> None) by congruence.
      apply nth_error_Some in H. lia. }
    assert (Hlast : nth_error m (1 * limit - 1) = Some (last page r)).
    { rewrite Hm, nth_error_app1 by (rewrite Hlen; lia).
      replace (1 * limit - 1)%nat with (List.length page) by (cbn in Hlen; lia).
      apply last_nth_error. }
    assert (snd (last page r) <> snd y).
    { intros Heq. apply Hno. exists 1%nat, (last page r), y.
      rewrite Nat.mul_1_l in *. auto with arith. }
    unfold time_le in Hle. lia.
Qed.

Hypothesis always_succeeds : forall n, status_code srv n = codes_ok.

(** Then the generator yields every row its first request matches, once and
    in order. *)
Lemma ri_while_complete :
  forall n f,
    ~ tie_split limit (matching srv f) ->
    ri_while srv limit n f = matching srv f.
Proof.
  apply (cursor_induction srv limit
           (fun n f => ~ tie_split limit (matching srv f) ->
                       ri_while srv limit n f = matching srv f)).
  intros n f IH Hno.
  rewrite ri_while_step, always_succeeds. change (codes_ok =? codes_ok) with true.
  destruct (page_of srv f limit) as [|r page] eqn:Hp.
  - symmetry. now apply page_of_nil with (limit := limit).
  - pose proof (next_matching f r page Hno Hp) as Hnext.
    rewrite (IH r page eq_refl).
    + rewrite Hnext, <- Hp. apply firstn_skipn.
    + rewrite Hnext. intros H. apply Hno. now apply tie_split_skipn.
Qed.

End Pagination.

(** The request after a page asks for no row that the request of the page
    did not match. *)
Lemma after_page_narrower (srv : service) (limit : nat) (f : lower_bound)
    (r : record) (page : list record) :
  page_of srv f limit = r :: page ->
  forall y, admits (After (snd (last page r))) y = true -> admits f y = true.
Proof.
  intros Hp y.
  assert (Hx : In (last page r) (matching srv f)).
  { rewrite <- (firstn_skipn limit (matching srv f)). apply in_or_app. left.
    fold (page_of srv f limit). rewrite Hp. apply last_in. }
  apply filter_In in Hx. destruct Hx as [_ Hadm].
  destruct f; cbn in *; auto; rewrite ?Z.leb_le, ?Z.ltb_lt in *; lia.
Qed.

Lemma page_in_matching (srv : service) (limit : nat) (f : lower_bound) (x : record) :
  In x (page_of srv f limit) -> In x (matching srv f).
Proof.
  intros H. rewrite <- (firstn_skipn limit (matching srv f)).
  apply in_or_app. now left.
Qed.

Lemma filter_after_none (c : timestamp) (l : list record) :
  (forall x, In x l -> snd x <= c) -> filter (admits (After c)) l = [].
Proof.
  induction l as [|x l IH]; intros H; [reflexivity|]. cbn.
  replace (c <? snd x) with false by (symmetry; apply Z.ltb_ge, H; now left).
  apply IH. intros y Hy. apply H. now right.
Qed.

(** In sorted rows, what the request after a page matches is what lies
    strictly after the page's last timestamp among the rows the page left
    over. *)
Lemma matching_after_page (srv : service) (limit : nat) (f : lower_bound)
    (r : record) (page : list record) :
  ascending (rows srv) ->
  page_of srv f limit = r :: page ->
  matching srv (After (snd (last page r))) =
  filter (admits (After (snd (last page r)))) (skipn limit (matching srv f)).
Proof.
  intros Hs Hp.
  assert (Hm : matching srv f = (r :: page) ++ skipn limit (matching srv f))
    by (rewrite <- Hp; symmetry; apply firstn_skipn).
  assert (Hsorted : StronglySorted time_le ((r :: page) ++ skipn limit (matching srv f)))
    by (rewrite <- Hm; apply time_sorted_filter, ascending_time_sorted, Hs).
  destruct (time_sorted_app _ _ Hsorted) as (Hpre & _ & _).
  unfold matching at 1.
  rewrite (filter_narrow _ (admits f))
    by exact (after_page_narrower srv limit f r page Hp).
  fold (matching srv f). rewrite Hm at 1. rewrite filter_app.
  rewrite (filter_after_none _ (r :: page)); [reflexivity|].
  intros x Hx. exact (time_sorted_last page r Hpre x Hx).
Qed.

(** From sorted rows a generator never yields more records than its request
    matches. *)
Lemma ri_while_length (srv : service) (limit : nat) :
  ascending (rows srv) ->
  forall n f,
    (List.length (ri_while srv limit n f) <= List.length (matching srv f))%nat.
Proof.
  intros Hs.
  apply (cursor_induction srv limit
           (fun n f => (List.length (ri_while srv limit n f)
                        <= List.length (matching srv f))%nat)).
  intros n f IH. rewrite ri_while_step.
  destruct (status_code srv n =? codes_ok); [|apply Nat.le_0_l].
  destruct (page_of srv f limit) as [|r page] eqn:Hp; [apply Nat.le_0_l|].
  assert (Hm : matching srv f = (r :: page) ++ skipn limit (matching srv f))
    by (rewrite <- Hp; symmetry; apply firstn_skipn).
  apply (f_equal (@List.length record)) in Hm. rewrite length_app in Hm.
  specialize (IH r page eq_refl).
  rewrite (matching_after_page srv limit f r page Hs Hp) in IH.
  pose proof (filter_length_le (admits (After (snd (last page r))))
                (skipn limit (matching srv f))) as Hle.
  rewrite length_app. lia.
Qed.

(** A tie that a page boundary splits is split by the first boundary or by a
    boundary of what the first page leaves over. *)
Lemma tie_split_cases (limit : nat) (m : list record) :
  (0 < limit)%nat ->
  tie_split limit m ->
  (exists a b, nth_error m (limit - 1) = Some a /\
               nth_error m limit = Some b /\ snd a = snd b)
  \/ tie_split limit (skipn limit m).
Proof.
  intros Hl (k & a & b & Hk & Ha & Hb & Hab).
  destruct k as [|[|k]]; [lia| |].
  - left. exists a, b. rewrite Nat.mul_1_l in Ha, Hb. auto.
  - right. exists (S k), a, b. split; [lia|].
    rewrite !nth_error_skipn.
    assert (1 <= S k * limit)%nat by nia.
    replace (limit + (S k * limit - 1))%nat with (S (S k) * limit - 1)%nat
      by (cbn; lia).
    replace (limit + S k * limit)%nat with (S (S k) * limit)%nat by reflexivity.
    auto.
Qed.

(** With every request succeeding, a tie that a page boundary splits costs
    the generator at least one record. *)
Lemma ri_while_loses (srv : service) (limit : nat) :
  (0 < limit)%nat ->
  (forall n, status_code srv n = codes_ok) ->
  ascending (rows srv) ->
  forall n f,
    tie_split limit (matching srv f) ->
    (List.length (ri_while srv limit n f) < List.length (matching srv f))%nat.
Proof.
  intros Hl Hok Hs.
  apply (cursor_induction srv limit
           (fun n f => tie_split limit (matching srv f) ->
                       (List.length (ri_while srv limit n f)
                        < List.length (matching srv f))%nat)).
  intros n f IH Htie.
  rewrite ri_while_step, Hok. change (codes_ok =? codes_ok) with true.
  destruct (page_of srv f limit) as [|r page] eqn:Hp.
  { rewrite (page_of_nil srv limit f Hl Hp) in Htie.
    destruct Htie as (k & a & b & _ & _ & Hb & _).
    destruct (k * limit)%nat; discriminate Hb. }
  assert (Hm : matching srv f = (r :: page) ++ skipn limit (matching srv f))
    by (rewrite <- Hp; symmetry; apply firstn_skipn).
  pose proof (f_equal (@List.length record) Hm) as Hlm. rewrite length_app in Hlm.
  pose proof (matching_after_page srv limit f r page Hs Hp) as Hnext.
  pose proof (ri_while_length srv limit Hs (S n) (After (snd (last page r)))) as Hrest.
  pose proof (filter_length_le (admits (After (snd (last page r))))
                (skipn limit (matching srv f))) as Hle.
  rewrite length_app.
  destruct (Nat.eq_dec
              (List.length (filter (admits (After (snd (last page r))))
                              (skipn limit (matching srv f))))
              (List.length (skipn limit (matching srv f)))) as [Hsame|Hless];
    [|rewrite Hnext in Hrest; lia].
  apply filter_length_forallb in Hsame.
  pose proof Hsame as Hall. apply forallb_filter_id in Hsame.
  rewrite Hsame in Hnext.
  destruct (tie_split_cases limit _ Hl Htie) as [(a & b & Ha & Hb & Hab)|Hlater].
  - exfalso.
    assert (Hlen : List.length (r :: page) = limit).
    { rewrite <- Hp. apply firstn_length_le.
      assert (nth_error (matching srv f) limit <> None) by congruence.
      apply nth_error_Some in H. lia. }
    assert (Hlast : nth_error (matching srv f) (limit - 1) = Some (last page r)).
    { rewrite Hm, nth_error_app1 by (rewrite Hlen; lia).
      replace (limit - 1)%nat with (List.length page) by (cbn in Hlen; lia).
      apply last_nth_error. }
    rewrite Hlast in Ha. inversion Ha; subst a.
    rewrite <- hd_error_skipn in Hb.
    destruct (skipn limit (matching srv f)) as [|b' suf]; [discriminate|].
    inversion Hb; subst b'. cbn in Hall.
    apply andb_true_iff in Hall. destruct Hall as [Hb' _].
    apply Z.ltb_lt in Hb'. lia.
  - rewrite <- Hnext in Hlater. specialize (IH r page eq_refl Hlater).
    rewrite Hnext in IH. lia.
Qed.


(** ** Fetch failures, page boundaries and the window boundary *)

Section Claims_sources.

(** C3, as amended.  A request answered with a status other than 200 is not
    an error to either generator: its [while] loop is simply not entered
    again and the generator returns.  So when the [k]-th request of a source
    fails, its stream ends with the ordinary [StopIteration], holds at most
    [k] pages of records, and is the beginning of the stream the source
    yields when every request succeeds (for Solr with a positive page
    size).  The driver sees an exhausted stream: the exit status of the
    script is 0 exactly when no trigger call was made and no exception ended
    the run, and 1 otherwise.  [update_pid] only ever adds to the requests sent and to the
    log of successful updates, so earlier notifications stay as they
    were. *)
Theorem failed_fetch_ends_stream_silently :
  (forall srv limit n f,
      status_code srv n <> codes_ok ->
      ri_while srv limit n f = [] /\
      solr_while srv limit n f = mkGenerator [] StopIteration) /\
  (forall srv start limit k,
      status_code srv k <> codes_ok ->
      finish (ri_generator_iter srv start limit) = StopIteration /\
      (List.length (pending (ri_generator_iter srv start limit)) <= k * limit)%nat /\
      exists rest,
        pending (ri_generator_iter (always_ok srv) start limit) =
        pending (ri_generator_iter srv start limit) ++ rest) /\
  (forall srv start limit k,
      (0 < limit)%nat ->
      status_code srv k <> codes_ok ->
      finish (solr_generator_iter srv start limit) = StopIteration /\
      (List.length (pending (solr_generator_iter srv start limit)) <= k * limit)%nat /\
      exists rest,
        pending (solr_generator_iter (always_ok srv) start limit) =
        pending (solr_generator_iter srv start limit) ++ rest) /\
  (forall trigger g pid,
      requests (update_pid trigger g pid) = requests g ++ [pid] /\
      exists more, info_log (update_pid trigger g pid) = info_log g ++ more) /\
  (forall trigger os args now ri_service solr_service,
      let r := main trigger os args now ri_service solr_service in
      (exit_status (ended r) = 0 <->
       requests (trigger_state r) = [] /\ (forall e, ended r <> Traceback e)) /\
      (exit_status (ended r) = 1 <->
       requests (trigger_state r) <> [] \/ (exists e, ended r = Traceback e))).
Proof.
  split.
  { intros srv limit n f H.
    split; [now apply ri_while_failed|now apply solr_while_failed]. }
  split.
  { intros srv start limit k Hk. unfold ri_generator_iter; cbn [pending finish].
    split; [reflexivity|]. split.
    - rewrite <- (Nat.sub_0_r k) at 1. apply ri_while_bound; [assumption|lia].
    - apply ri_while_prefix. }
  split.
  { intros srv start limit k Hl Hk. unfold solr_generator_iter.
    rewrite !solr_while_as_ri by assumption. cbn [pending finish].
    split; [reflexivity|]. split.
    - rewrite <- (Nat.sub_0_r k) at 1. apply ri_while_bound; [assumption|lia].
    - apply ri_while_prefix. }
  split.
  { intros trigger g pid.
    split; [apply update_pid_requests|apply update_pid_info_log]. }
  intros trigger os args now ri_service solr_service r.
  exact (main_exit_status trigger os args now ri_service solr_service).
Qed.

(** The theorem at a resource index whose second answer is a failure. *)
Lemma failed_fetch_ends_stream_silently_witness :
  status_code service_failing_second 1 <> codes_ok /\
  finish (ri_generator_iter service_failing_second None 1) = StopIteration /\
  (List.length (pending (ri_generator_iter service_failing_second None 1))
   <= 1 * 1)%nat /\
  exists rest,
    pending (ri_generator_iter (always_ok service_failing_second) None 1) =
    pending (ri_generator_iter service_failing_second None 1) ++ rest.
Proof.
  assert (H : status_code service_failing_second 1 <> codes_ok)
    by (vm_compute; discriminate).
  split; [exact H|].
  destruct failed_fetch_ends_stream_silently as (_ & Hri & _).
  exact (Hri service_failing_second None 1%nat 1%nat H).
Defined.

(** C3 as stated fails.  The catalog holds [(a, 1)] and [(b, 2)], the page
    size is 1 and the second request to the resource index is answered with
    status 500; Solr holds [(a, 1)].  The pass is in its second fetch when
    the failure comes, and the script ends by [exit(0)]: no error is
    reported and the exit status is zero. *)
Lemma failed_fetch_exits_zero :
  status_code service_failing_second 1 <> codes_ok /\
  ri_generator_iter service_failing_second None 1
  = mkGenerator [("a"%string, 1)] StopIteration /\
  main trigger_accepting sample_platform (mkArguments All 1) 0
       service_failing_second service_a
  = mkRun (Exit 0) gsearch_init /\
  exit_status
    (ended (main trigger_accepting sample_platform (mkArguments All 1) 0
              service_failing_second service_a)) = 0.
Proof.
  split; [vm_compute; discriminate|]. repeat split; reflexivity.
Qed.

(** C5, as amended.  With a positive page size, every request succeeding and
    the rows in the order of the query, a source yields every row that its
    first request matches, once and in order, if and only if no page boundary
    falls between two rows that share a timestamp; when one does, the source
    yields fewer records than its first request matches.  (After each page
    the generator asks for the rows strictly after the timestamp of the
    page's last row; nothing looks for rows cut off at that timestamp.) *)
Theorem sources_yield_window_unless_tie_is_split
    (srv : service) (start : option timestamp) (limit : nat) :
  (0 < limit)%nat ->
  (forall n, status_code srv n = codes_ok) ->
  ascending (rows srv) ->
  (ri_generator_iter srv start limit =
     mkGenerator (matching srv (ri_first_filter start)) StopIteration
   <-> ~ tie_split limit (matching srv (ri_first_filter start))) /\
  (tie_split limit (matching srv (ri_first_filter start)) ->
   (List.length (pending (ri_generator_iter srv start limit))
    < List.length (matching srv (ri_first_filter start)))%nat) /\
  (solr_generator_iter srv start limit =
     mkGenerator (matching srv (solr_first_filter start)) StopIteration
   <-> ~ tie_split limit (matching srv (solr_first_filter start))) /\
  (tie_split limit (matching srv (solr_first_filter start)) ->
   (List.length (pending (solr_generator_iter srv start limit))
    < List.length (matching srv (solr_first_filter start)))%nat).
Proof.
  intros Hl Hok Hs.
  unfold ri_generator_iter, solr_generator_iter.
  rewrite solr_while_as_ri by assumption. cbn [pending].
  assert (Hiff : forall f,
             mkGenerator (ri_while srv limit 0 f) StopIteration =
               mkGenerator (matching srv f) StopIteration
             <-> ~ tie_split limit (matching srv f)).
  { intros f. split.
    - intros Heq Htie. inversion Heq as [Hpend].
      pose proof (ri_while_loses srv limit Hl Hok Hs 0%nat f Htie) as Hlt.
      rewrite Hpend in Hlt. lia.
    - intros Hno. now rewrite ri_while_complete. }
  split; [apply Hiff|]. split; [now apply ri_while_loses|].
  split; [apply Hiff|]. now apply ri_while_loses.
Qed.

(** The theorem at three rows, the tie inside the first page of two, where
    nothing is lost, and with a page size of 1, which splits the tie. *)
Lemma sources_yield_window_unless_tie_is_split_witness :
  (0 < 2)%nat /\ (0 < 1)%nat /\
  (forall n, status_code service_tie_then_c n = codes_ok) /\
  ascending (rows service_tie_then_c) /\
  ~ tie_split 2 (matching service_tie_then_c (ri_first_filter None)) /\
  ~ tie_split 2 (matching service_tie_then_c (solr_first_filter None)) /\
  tie_split 1 (matching service_tie_then_c (ri_first_filter None)) /\
  tie_split 1 (matching service_tie_then_c (solr_first_filter None)) /\
  ri_generator_iter service_tie_then_c None 2 =
    mkGenerator (matching service_tie_then_c (ri_first_filter None)) StopIteration /\
  solr_generator_iter service_tie_then_c None 2 =
    mkGenerator (matching service_tie_then_c (solr_first_filter None)) StopIteration /\
  (List.length (pending (ri_generator_iter service_tie_then_c None 1))
   < List.length (matching service_tie_then_c (ri_first_filter None)))%nat /\
  (List.length (pending (solr_generator_iter service_tie_then_c None 1))
   < List.length (matching service_tie_then_c (solr_first_filter None)))%nat.
Proof.
  assert (Hl2 : (0 < 2)%nat) by lia.
  assert (Hl1 : (0 < 1)%nat) by lia.
  assert (Hok : forall n, status_code service_tie_then_c n = codes_ok)
    by reflexivity.
  assert (Hs : ascending (rows service_tie_then_c)) by ascending_by_evaluation.
  assert (Hno : ~ tie_split 2 (rows service_tie_then_c)).
  { intros (k & a & b & Hk & Ha & Hb & Hab).
    destruct k as [|[|k]]; [lia| |discriminate Hb].
    cbn in Ha, Hb. inversion Ha; inversion Hb; subst. discriminate Hab. }
  assert (Htie : tie_split 1 (rows service_tie_then_c)).
  { exists 1%nat, ("a"%string, 1), ("b"%string, 1). repeat split. lia. }
  destruct (sources_yield_window_unless_tie_is_split
              service_tie_then_c None 2 Hl2 Hok Hs) as (Hri & _ & Hsolr & _).
  destruct (sources_yield_window_unless_tie_is_split
              service_tie_then_c None 1 Hl1 Hok Hs) as (_ & Hri1 & _ & Hsolr1).
  repeat (split; [assumption|]).
  split; [exact (proj2 Hri Hno)|]. split; [exact (proj2 Hsolr Hno)|].
  split; [exact (Hri1 Htie)|exact (Hsolr1 Htie)].
Defined.

(** C5 as stated fails.  Two rows share the timestamp 1 and the page size is
    1: both sources yield the first row and then ask for the rows strictly
    after timestamp 1, and the second row is never yielded. *)
Lemma tie_across_page_boundary_is_dropped :
  ascending (rows service_tie) /\
  In ("b"%string, 1) (matching service_tie (ri_first_filter None)) /\
  In ("b"%string, 1) (matching service_tie (solr_first_filter None)) /\
  ri_generator_iter service_tie None 1
  = mkGenerator [("a"%string, 1)] StopIteration /\
  solr_generator_iter service_tie None 1
  = mkGenerator [("a"%string, 1)] StopIteration /\
  ~ In ("b"%string, 1) (pending (ri_generator_iter service_tie None 1)) /\
  ~ In ("b"%string, 1) (pending (solr_generator_iter service_tie None 1)).
Proof.
  split; [ascending_by_evaluation|].
  split; [right; now left|]. split; [right; now left|].
  split; [reflexivity|]. split; [reflexivity|].
  split; intros [H|[]]; discriminate H.
Qed.

(** C7, the boundary itself.  A record modified exactly at the start of the
    window passes the first filter of the resource index generator and not
    that of the Solr generator.  With [--since 100], on every platform and
    whatever the clock says, the start is second 100; with an object modified
    at second 100 that both indexes hold, together with a later one, the
    resource index yields both records and Solr yields the later one only, so
    the up-to-date object is handed to the trigger. *)
Theorem window_boundary_filters_disagree :
  (forall (s : timestamp) (p : string),
      admits (ri_first_filter (Some s)) (p, s) = true /\
      admits (solr_first_filter (Some s)) (p, s) = false) /\
  (forall (os : platform) (now : Z),
      let svc := mkService [("x"%string, 100 * second); ("y"%string, 200 * second)]
                   (fun _ => codes_ok) in
      let start := Some (100 * second) in
      let r := main (fun _ _ => codes_ok) os (mkArguments (Since 100) 10) now
                 svc svc in
      window_start os (Since 100) now = inl start /\
      pending (ri_generator_iter svc start 10) =
        [("x"%string, 100 * second); ("y"%string, 200 * second)] /\
      pending (solr_generator_iter svc start 10) = [("y"%string, 200 * second)] /\
      requests (trigger_state r) = ["x"%string] /\
      ended r = Exit 1).
Proof.
  split.
  - intros s p. cbn. now rewrite Z.leb_refl, Z.ltb_irrefl.
  - intros os now svc start r.
    assert (Hw : window_start os (Since 100) now = inl start).
    { unfold window_start, window_timestamp.
      replace (Z.quot (if 100 =? 0 then 0 else second * 100) second) with 100
        by reflexivity.
      rewrite (strftime_gmtime_posix os 100) by lia. reflexivity. }
    split; [exact Hw|].
    unfold r, main. cbn [switch query_limit]. rewrite Hw.
    repeat split; reflexivity.
Qed.

End Claims_sources.

(** * Further properties of the script *)

(** ** The window of the command line *)

(** X1.  Only [--all] leaves the window open.  [--last-n-days n] gives what
    [--last-n-seconds] of [86400 * n] gives, exception included; a count of 0
    for either, like [--since 0], is taken for an absent switch and puts the
    start at the epoch, the widest window and not the narrowest.  Any other
    count [n] of seconds puts the start [n] seconds before the clock, cut to
    a whole second, as long as that second lies in the range every platform
    formats; [--since n] does not look at the clock and puts the start at
    second [n] for [n] in that range.  When line 183 raises instead, the
    script ends with that exception before it has requested anything. *)
Theorem window_of_the_command_line (os : platform) :
  (forall sel now, window_start os sel now = inl None <-> sel = All) /\
  (forall n now,
      window_start os (LastNDays n) now =
      window_start os (LastNSeconds (86400 * n)) now) /\
  (forall now,
      window_start os (LastNDays 0) now = inl (Some 0) /\
      window_start os (LastNSeconds 0) now = inl (Some 0) /\
      window_start os (Since 0) now = inl (Some 0)) /\
  (forall n now,
      n <> 0 ->
      0 <= now - second * n ->
      Z.quot (now - second * n) second <= 2147483647 ->
      window_start os (LastNSeconds n) now =
      inl (Some (second * Z.quot (now - second * n) second))) /\
  (forall n now now',
      window_start os (Since n) now = window_start os (Since n) now') /\
  (forall n now,
      0 <= n <= 2147483647 ->
      window_start os (Since n) now = inl (Some (second * n))) /\
  (forall trigger args now ri_service solr_service e,
      window_start os (switch args) now = inr e ->
      main trigger os args now ri_service solr_service =
      mkRun (Traceback e) gsearch_init).
Proof.
  assert (Hzero : strftime_gmtime os 0 = inl 0)
    by (rewrite (strftime_gmtime_posix os 0) by lia; reflexivity).
  split.
  { intros sel now. split; [|intros ->; reflexivity].
    destruct sel; [reflexivity| | |]; unfold window_start;
      match goal with
      | |- context [strftime_gmtime os ?t] => destruct (strftime_gmtime os t)
      end; intros H; discriminate H. }
  split.
  { intros n now. unfold window_start, window_timestamp.
    destruct (Z.eqb_spec n 0) as [->|Hn]; [reflexivity|].
    destruct (Z.eqb_spec (86400 * n) 0) as [H0|_]; [lia|reflexivity]. }
  split.
  { intros now. unfold window_start, window_timestamp.
    change (Z.quot (if 0 =? 0 then 0 else _) second) with 0.
    rewrite Hzero. repeat split. }
  split.
  { intros n now Hn Hlo Hhi. unfold window_start, window_timestamp.
    destruct (Z.eqb_spec n 0) as [|_]; [contradiction|].
    rewrite (strftime_gmtime_posix os); [reflexivity|].
    split; [|assumption]. apply Z.quot_pos; [assumption|reflexivity]. }
  split.
  { intros n now now'. reflexivity. }
  split.
  { intros n now Hn. unfold window_start, window_timestamp.
    destruct (Z.eqb_spec n 0) as [->|_].
    - change (Z.quot 0 second) with 0. now rewrite Hzero.
    - replace (Z.quot (second * n) second) with n
        by (rewrite Z.mul_comm, Z.quot_mul; [reflexivity|discriminate]).
      now rewrite (strftime_gmtime_posix os n Hn). }
  intros trigger args now ri_service solr_service e He.
  unfold main. now rewrite He.
Qed.

(** The theorem at a quarter of a second past second 100 and a window of the
    last 5 seconds: the start is second 95. *)
Lemma window_of_the_command_line_witness :
  5 <> 0 /\
  0 <= 100250000 - second * 5 /\
  Z.quot (100250000 - second * 5) second <= 2147483647 /\
  window_start sample_platform (LastNSeconds 5) 100250000 =
  inl (Some (second * Z.quot (100250000 - second * 5) second)) /\
  second * Z.quot (100250000 - second * 5) second = second * 95.
Proof.
  assert (H : 5 <> 0) by lia.
  assert (Hlo : 0 <= 100250000 - second * 5) by (vm_compute; discriminate).
  assert (Hhi : Z.quot (100250000 - second * 5) second <= 2147483647)
    by (vm_compute; discriminate).
  repeat (split; [assumption|]).
  destruct (window_of_the_command_line sample_platform)
    as (_ & _ & _ & Hsec & _).
  split; [exact (Hsec 5 100250000 H Hlo Hhi)|reflexivity].
Defined.

(** ** What the trigger is asked and what is logged *)

Lemma flagged_comm (A B : list record) : flagged B A = flagged A B.
Proof.
  apply (flagged_cases (fun A B F => flagged B A = F)).
  - intros B0. apply flagged_nil_r.
  - intros A0. apply flagged_nil_l.
  - intros a A0 b B0 Hab IH. rewrite flagged_cons.
    replace (key_ltb b a) with false
      by (destruct (key_ltb b a) eqn:E; [now elim (key_lt_asym _ _ Hab)|reflexivity]).
    unfold key_lt in Hab. now rewrite Hab, IH.
  - intros a A0 b B0 Hba IH. rewrite flagged_cons.
    unfold key_lt in Hba. now rewrite Hba, IH.
  - intros a A0 B0 IH. now rewrite flagged_cons, key_ltb_irrefl.
Qed.

Lemma flagged_length (A B : list record) :
  (List.length (flagged A B) <= List.length A + List.length B)%nat.
Proof.
  apply (flagged_cases
           (fun A B F => (List.length F <= List.length A + List.length B)%nat));
    intros; cbn in *; lia.
Qed.

(** X2.  The trigger is only ever asked about PIDs that one of the two
    generators yields, and at most once for each record they yield: for any
    two generators, sorted or not, every PID requested is the PID of a pending
    record of one of them, and there are no more requests than records. *)
Theorem trigger_is_asked_about_yielded_records_only
    (trigger : nat -> string -> Z) (ri solr : generator) :
  Forall (fun pid => exists t, In (pid, t) (pending ri) \/ In (pid, t) (pending solr))
         (requests (trigger_state (reconcile trigger ri solr))) /\
  (List.length (requests (trigger_state (reconcile trigger ri solr)))
   <= List.length (pending ri) + List.length (pending solr))%nat.
Proof.
  rewrite reconcile_flags. split.
  - rewrite Forall_forall. intros pid Hpid.
    apply in_map_iff in Hpid. destruct Hpid as ([p t] & <- & Hin).
    exists t. cbn. now apply flagged_in.
  - rewrite length_map. apply flagged_length.
Qed.

(** X3.  Which PIDs are handed to the trigger, and in which order, does not
    depend on which of the two streams is the catalog's and which is Solr's:
    swapping the generators gives the same requests. *)
Theorem requests_are_symmetric
    (trigger : nat -> string -> Z) (ri solr : generator) :
  requests (trigger_state (reconcile trigger ri solr)) =
  requests (trigger_state (reconcile trigger solr ri)).
Proof. rewrite !reconcile_flags. now rewrite flagged_comm. Qed.

Lemma acknowledged_app (trigger : nat -> string -> Z) (pids : list string) :
  forall n pid,
    acknowledged trigger n (pids ++ [pid]) =
    acknowledged trigger n pids ++
    (if trigger (n + List.length pids)%nat pid =? codes_ok then [pid] else []).
Proof.
  induction pids as [|p pids IH]; intros n pid; cbn.
  - rewrite Nat.add_0_r. now destruct (_ =? codes_ok).
  - rewrite IH, Nat.add_succ_r. now destruct (trigger n p =? codes_ok).
Qed.

Lemma update_pid_info_log_exact (trigger : nat -> string -> Z) (g : gsearch) (pid : string) :
  info_log (update_pid trigger g pid) =
  info_log g ++
  (if trigger (List.length (requests g)) pid =? codes_ok then [pid] else []).
Proof.
  unfold update_pid, notify, mark_updated, session_post.
  destruct (updated g); cbn; destruct (_ =? codes_ok); cbn;
    now rewrite ?app_nil_r.
Qed.

Lemma reaches_acknowledged (trigger : nat -> string -> Z) (g g' : gsearch) :
  reaches trigger g g' ->
  info_log g = acknowledged trigger 0 (requests g) ->
  info_log g' = acknowledged trigger 0 (requests g').
Proof.
  induction 1 as [|g' pid _ IH]; intros H0; [assumption|].
  rewrite update_pid_info_log_exact, update_pid_requests, acknowledged_app.
  now rewrite (IH H0).
Qed.

(** X4.  At the end of a run the PIDs logged at level INFO are exactly the
    PIDs of the update requests that GSearch answered with status 200, in the
    order of the requests; a rejected update leaves no INFO line and does not
    keep later ones from being logged. *)
Theorem info_log_is_the_acknowledged_requests
    (trigger : nat -> string -> Z) (ri solr : generator) :
  info_log (trigger_state (reconcile trigger ri solr)) =
  acknowledged trigger 0 (requests (trigger_state (reconcile trigger ri solr))).
Proof.
  apply (reaches_acknowledged trigger gsearch_init); [|reflexivity].
  apply reconcile_reaches.
Qed.

(** ** Notifications that fail *)

(** One iteration under two triggers: the same decision, the same pulls. *)
Lemma loop_body_frame (trigger1 trigger2 : nat -> string -> Z) (l1 l2 : locals) :
  frame l1 = frame l2 ->
  match loop_body trigger1 l1, loop_body trigger2 l2 with
  | Again l1', Again l2' => frame l1' = frame l2'
  | Done f1, Done f2 => leaves f1 = leaves f2
  | _, _ => False
  end.
Proof.
  destruct l1 as [[pa ea] [pb eb] g1 [p1 t1] [p2 t2]], l2 as [ri2 solr2 g2 a2 b2].
  unfold frame; cbn. intros H; inversion H; subst; clear H.
  unfold loop_body, pull_ri, pull_solr, next; cbn.
  destruct (t1 <? t2), (t2 <? t1), (p1 <? p2)%string, (p2 <? p1)%string,
    pa as [|a pa], pb as [|b pb], ea, eb; reflexivity.
Qed.

Lemma while_loop_leaves (trigger1 trigger2 : nat -> string -> Z) (l1 : locals) :
  forall l2,
    frame l1 = frame l2 ->
    leaves (while_loop trigger1 l1) = leaves (while_loop trigger2 l2).
Proof.
  apply (while_loop_iterations trigger1
           (fun l1 f1 => forall l2, frame l1 = frame l2 ->
                                    leaves f1 = leaves (while_loop trigger2 l2)));
    clear l1.
  - intros l1 f1 H1 l2 Hf.
    pose proof (loop_body_frame trigger1 trigger2 l1 l2 Hf) as Hb.
    rewrite H1 in Hb. rewrite (while_loop_step trigger2 l2).
    destruct (loop_body trigger2 l2); [contradiction|assumption].
  - intros l1 l1' f1 H1 IH l2 Hf.
    pose proof (loop_body_frame trigger1 trigger2 l1 l2 Hf) as Hb.
    rewrite H1 in Hb. rewrite (while_loop_step trigger2 l2).
    destruct (loop_body trigger2 l2); [now apply IH|contradiction].
Qed.

Lemma try_block_leaves (trigger1 trigger2 : nat -> string -> Z)
    (ri solr : generator) (g1 g2 : gsearch) :
  leaves (try_block trigger1 ri solr g1) = leaves (try_block trigger2 ri solr g2).
Proof.
  unfold try_block.
  destruct (next ri); try reflexivity.
  destruct (next solr); try reflexivity.
  now apply while_loop_leaves.
Qed.

(** X5.  An update that GSearch answers with a status other than 200 is not
    fatal and changes nothing in the pass: under any two assignments of
    response statuses to the update requests the script makes the same update
    requests in the same order, ends the same way (same [exit] call or same
    traceback) and leaves the [updated] flag the same; the statuses show in
    the INFO log only.  (The trigger is the status it answers with; a request
    on which the HTTP library itself raises is not part of this.) *)
Theorem pass_does_not_depend_on_trigger_answers
    (trigger1 trigger2 : nat -> string -> Z) (ri solr : generator) :
  requests (trigger_state (reconcile trigger1 ri solr)) =
    requests (trigger_state (reconcile trigger2 ri solr)) /\
  updated (trigger_state (reconcile trigger1 ri solr)) =
    updated (trigger_state (reconcile trigger2 ri solr)) /\
  ended (reconcile trigger1 ri solr) = ended (reconcile trigger2 ri solr).
Proof.
  assert (Hreq : requests (trigger_state (reconcile trigger1 ri solr)) =
                 requests (trigger_state (reconcile trigger2 ri solr)))
    by now rewrite !reconcile_flags.
  assert (Hupd : updated (trigger_state (reconcile trigger1 ri solr)) =
                 updated (trigger_state (reconcile trigger2 ri solr))).
  { rewrite (reaches_consistent trigger1 _ _ (reconcile_reaches trigger1 ri solr)
               consistent_init).
    rewrite (reaches_consistent trigger2 _ _ (reconcile_reaches trigger2 ri solr)
               consistent_init).
    now rewrite Hreq. }
  split; [exact Hreq|]. split; [exact Hupd|].
  rewrite !reconcile_trigger_state in Hupd.
  pose proof (try_block_leaves trigger1 trigger2 ri solr gsearch_init gsearch_init)
    as Hl.
  unfold reconcile.
  destruct (try_block trigger1 ri solr gsearch_init) as [r1 s1 g1|e1 g1],
           (try_block trigger2 ri solr gsearch_init) as [r2 s2 g2|e2 g2];
    cbn [leaves trigger_of] in *; inversion Hl; subst; [|reflexivity].
  rewrite !for_leftover_spec.
  destruct (pending r2), (finish r2), (pending s2), (finish s2); cbn;
    rewrite ?Hupd; reflexivity.
Qed.

(** ** What the generators yield *)

Lemma ri_while_in_matching (srv : service) (limit : nat) :
  forall n f x, In x (ri_while srv limit n f) -> In x (matching srv f).
Proof.
  apply (cursor_induction srv limit
           (fun n f => forall x, In x (ri_while srv limit n f) ->
                                 In x (matching srv f))).
  intros n f IH x. rewrite ri_while_step.
  destruct (status_code srv n =? codes_ok); [|intros []].
  destruct (page_of srv f limit) as [|r page] eqn:Hp; [intros []|].
  intros Hx. apply in_app_or in Hx. destruct Hx as [Hx|Hx].
  - apply (page_in_matching srv limit). now rewrite Hp.
  - specialize (IH r page eq_refl x Hx).
    apply filter_In in IH. destruct IH as [Hrows Hadm].
    apply filter_In. split; [assumption|].
    now apply (after_page_narrower srv limit f r page Hp).
Qed.

(** The two loops yield the same records from the same rows, whatever the
    page size; they differ in how they end when it is 0. *)
Lemma solr_while_pending (srv : service) (limit : nat) :
  forall n f, pending (solr_while srv limit n f) = ri_while srv limit n f.
Proof.
  apply (cursor_induction srv limit
           (fun n f => pending (solr_while srv limit n f) = ri_while srv limit n f)).
  intros n f IH. rewrite solr_while_step, ri_while_step.
  destruct (status_code srv n =? codes_ok); [|reflexivity].
  destruct (page_of srv f limit) as [|r page] eqn:Hp.
  - now destruct (Nat.eqb (List.length (matching srv f)) 0).
  - destruct (Nat.eqb (List.length (matching srv f)) 0) eqn:E.
    + apply Nat.eqb_eq, length_zero_iff_nil in E.
      unfold page_of in Hp. rewrite E, firstn_nil in Hp. discriminate.
    + cbn [pending]. now rewrite (IH r page eq_refl).
Qed.

(** X6.  Whatever the page size, the statuses and the order of the rows,
    neither generator yields a record that its service does not hold or that
    lies outside the window: every record from the resource index is a row
    with a timestamp at or after the start, every record from Solr a row with
    a timestamp strictly after it. *)
Theorem generators_stay_inside_the_window
    (srv : service) (start : option timestamp) (limit : nat) :
  Forall (fun r => In r (rows srv) /\
                   match start with Some s => s <= snd r | None => True end)
         (pending (ri_generator_iter srv start limit)) /\
  Forall (fun r => In r (rows srv) /\
                   match start with Some s => s < snd r | None => True end)
         (pending (solr_generator_iter srv start limit)).
Proof.
  unfold ri_generator_iter, solr_generator_iter.
  rewrite solr_while_pending. cbn [pending].
  split; rewrite Forall_forall; intros x Hx;
    apply ri_while_in_matching, filter_In in Hx; destruct Hx as [Hrows Hadm];
    (split; [assumption|]); destruct start as [s|]; cbn in Hadm; auto.
  - now apply Z.leb_le.
  - now apply Z.ltb_lt.
Qed.

(** X7.  The Solr generator raises [IndexError] exactly when the page size is
    0, its first request succeeds and matches at least one document; in every
    other case, failed requests included, it ends by returning.  With a page
    size of 0 it yields nothing either way. *)
Theorem solr_generator_index_error
    (srv : service) (start : option timestamp) (limit : nat) :
  (finish (solr_generator_iter srv start limit) = Raise IndexError <->
     limit = 0%nat /\ status_code srv 0 = codes_ok /\
     matching srv (solr_first_filter start) <> []) /\
  (finish (solr_generator_iter srv start limit) = StopIteration \/
   finish (solr_generator_iter srv start limit) = Raise IndexError) /\
  pending (solr_generator_iter srv start 0) = [].
Proof.
  unfold solr_generator_iter.
  split; [|split].
  - destruct limit as [|limit].
    + rewrite solr_while_step. unfold page_of. rewrite firstn_0.
      destruct (Z.eqb_spec (status_code srv 0) codes_ok) as [Hs|Hs].
      * destruct (matching srv (solr_first_filter start)) as [|m ms] eqn:Hm; cbn.
        -- split; [discriminate|]. intros (_ & _ & H). now elim H.
        -- split; [|reflexivity]. intros _. repeat split; [assumption|discriminate].
      * cbn. split; [discriminate|]. intros (_ & H & _). contradiction.
    + rewrite solr_while_as_ri by lia. cbn.
      split; [discriminate|]. intros (H & _). discriminate.
  - destruct limit as [|limit].
    + rewrite solr_while_step. unfold page_of. rewrite firstn_0.
      destruct (status_code srv 0 =? codes_ok); [|now left].
      destruct (Nat.eqb _ 0); [now left|now right].
    + rewrite solr_while_as_ri by lia. now left.
  - rewrite solr_while_pending, ri_while_step. unfold page_of. rewrite firstn_0.
    now destruct (status_code srv 0 =? codes_ok).
Qed.

(** ** Sorted rows give sorted streams *)

Lemma key_lt_time_le (a b : record) : key_lt a b -> time_le a b.
Proof. intros H. apply key_le_time_le. now left. Qed.

Lemma strict_time_sorted (l : list record) :
  StronglySorted key_lt l -> StronglySorted time_le l.
Proof.
  induction 1 as [|a l _ IH Ha]; constructor; [assumption|].
  eapply Forall_impl; [|exact Ha]. intros b. apply key_lt_time_le.
Qed.

Lemma strict_filter (p : record -> bool) (l : list record) :
  StronglySorted key_lt l -> StronglySorted key_lt (filter p l).
Proof.
  induction 1 as [|a l _ IH Ha]; cbn; [constructor|].
  destruct (p a); [|assumption].
  constructor; [assumption|].
  rewrite Forall_forall in *. intros x Hx. apply filter_In in Hx. now apply Ha.
Qed.

Lemma strict_firstn (n : nat) (l : list record) :
  StronglySorted key_lt l -> StronglySorted key_lt (firstn n l).
Proof.
  intros H. revert n. induction H as [|a l _ IH Ha]; intros [|n]; cbn;
    try constructor; [apply IH|].
  rewrite Forall_forall in *. intros x Hx. apply Ha.
  rewrite <- (firstn_skipn n l). apply in_or_app. now left.
Qed.

Lemma strict_app (l1 l2 : list record) :
  StronglySorted key_lt l1 -> StronglySorted key_lt l2 ->
  (forall a b, In a l1 -> In b l2 -> key_lt a b) ->
  StronglySorted key_lt (l1 ++ l2).
Proof.
  induction 1 as [|a l1 _ IH Ha]; intros H2 Hcross; cbn; [assumption|].
  constructor.
  - apply IH; [assumption|]. intros x y Hx Hy. apply Hcross; [now right|assumption].
  - rewrite Forall_forall in *. intros x Hx. apply in_app_or in Hx.
    destruct Hx as [Hx|Hx]; [now apply Ha|]. apply Hcross; [now left|assumption].
Qed.

Lemma strict_ascending (l : list record) : StronglySorted key_lt l -> ascending l.
Proof.
  intros H. apply StronglySorted_Sorted in H.
  induction H as [|a l _ IH Ha]; constructor; [assumption|].
  destruct Ha; constructor. now left.
Qed.

Lemma strict_nodup (l : list record) : StronglySorted key_lt l -> NoDup l.
Proof.
  induction l as [|a l IH]; intros H; constructor.
  - now apply strict_not_in_tail.
  - apply IH. eapply strict_tail; eassumption.
Qed.

Lemma ri_while_strict (srv : service) (limit : nat) :
  StronglySorted key_lt (rows srv) ->
  forall n f, StronglySorted key_lt (ri_while srv limit n f).
Proof.
  intros Hrows.
  apply (cursor_induction srv limit
           (fun n f => StronglySorted key_lt (ri_while srv limit n f))).
  intros n f IH. rewrite ri_while_step.
  destruct (status_code srv n =? codes_ok); [|constructor].
  destruct (page_of srv f limit) as [|r page] eqn:Hp; [constructor|].
  assert (Hpage : StronglySorted key_lt (r :: page))
    by (rewrite <- Hp; apply strict_firstn, strict_filter, Hrows).
  apply strict_app; [assumption|now apply IH|].
  intros a b Ha Hb.
  apply ri_while_in_matching, filter_In in Hb. destruct Hb as [_ Hb].
  cbn in Hb. apply Z.ltb_lt in Hb.
  pose proof (time_sorted_last page r (strict_time_sorted _ Hpage) a Ha) as Hle.
  unfold time_le in Hle. apply key_ltb_spec. left. lia.
Qed.

(** X8.  From rows that are correctly sorted and free of repetitions each
    generator yields a stream that is correctly sorted and free of
    repetitions, whatever the page size, the start of the window and the
    statuses of the requests, also when a page boundary cuts through a tie or
    a fetch fails: the streams always meet what the merge expects of them. *)
Theorem generators_yield_sorted_streams
    (srv : service) (start : option timestamp) (limit : nat) :
  ascending (rows srv) -> NoDup (rows srv) ->
  ascending (pending (ri_generator_iter srv start limit)) /\
  NoDup (pending (ri_generator_iter srv start limit)) /\
  ascending (pending (solr_generator_iter srv start limit)) /\
  NoDup (pending (solr_generator_iter srv start limit)).
Proof.
  intros Hs Hn.
  pose proof (ascending_strict _ Hs Hn) as Hstrict.
  unfold ri_generator_iter, solr_generator_iter.
  rewrite solr_while_pending. cbn [pending].
  repeat split;
    solve [ apply strict_ascending, ri_while_strict, Hstrict
          | apply strict_nodup, ri_while_strict, Hstrict ].
Qed.

(** The theorem at rows with a tie that a page size of 1 cuts through. *)
Lemma generators_yield_sorted_streams_witness :
  ascending (rows service_tie_then_c) /\ NoDup (rows service_tie_then_c) /\
  ascending (pending (ri_generator_iter service_tie_then_c None 1)) /\
  NoDup (pending (ri_generator_iter service_tie_then_c None 1)) /\
  ascending (pending (solr_generator_iter service_tie_then_c None 1)) /\
  NoDup (pending (solr_generator_iter service_tie_then_c None 1)).
Proof.
  assert (Hs : ascending (rows service_tie_then_c)) by ascending_by_evaluation.
  assert (Hn : NoDup (rows service_tie_then_c)) by distinct_by_evaluation.
  split; [exact Hs|]. split; [exact Hn|].
  exact (generators_yield_sorted_streams service_tie_then_c None 1 Hs Hn).
Defined.

(** ** Two indexes that agree, and indexes that do not answer *)

Lemma ri_while_same_matching (srv : service) (limit n : nat) (f g : lower_bound) :
  matching srv f = matching srv g ->
  ri_while srv limit n f = ri_while srv limit n g.
Proof.
  intros H. rewrite (ri_while_step srv limit n f), (ri_while_step srv limit n g).
  unfold page_of. now rewrite H.
Qed.

Lemma ri_while_ext (s1 s2 : service) (limit : nat) :
  rows s1 = rows s2 ->
  (forall n, status_code s1 n = status_code s2 n) ->
  forall n f, ri_while s1 limit n f = ri_while s2 limit n f.
Proof.
  intros Hrows Hstatus.
  apply (cursor_induction s1 limit
           (fun n f => ri_while s1 limit n f = ri_while s2 limit n f)).
  intros n f IH. rewrite (ri_while_step s1), (ri_while_step s2), Hstatus.
  replace (page_of s2 f limit) with (page_of s1 f limit)
    by (unfold page_of, matching; now rewrite Hrows).
  destruct (status_code s2 n =? codes_ok); [|reflexivity].
  destruct (page_of s1 f limit) as [|r page] eqn:Hp; [reflexivity|].
  now rewrite (IH r page eq_refl).
Qed.

(** X9.  When line 183 gives a start, the resource index and Solr hold the
    same rows and answer their requests with the same statuses, the page size
    is positive and no row is modified exactly at the start of the window,
    the script calls the trigger not once and ends by [exit(0)].  The rows
    need not be sorted, pages may cut through ties and fetches may fail: both
    sides lose the same records. *)
Theorem agreeing_indexes_exit_zero
    (trigger : nat -> string -> Z) (os : platform) (sel : selection)
    (limit : nat) (now : Z) (ri_service solr_service : service)
    (start : option timestamp) :
  (0 < limit)%nat ->
  rows ri_service = rows solr_service ->
  (forall n, status_code ri_service n = status_code solr_service n) ->
  window_start os sel now = inl start ->
  (forall s r, start = Some s -> In r (rows ri_service) -> snd r <> s) ->
  main trigger os (mkArguments sel limit) now ri_service solr_service
  = mkRun (Exit 0) gsearch_init.
Proof.
  intros Hl Hrows Hstatus Hw Hedge.
  unfold main, ri_generator_iter, solr_generator_iter. cbn [switch query_limit].
  rewrite Hw.
  rewrite solr_while_as_ri by assumption.
  rewrite <- (ri_while_ext ri_service solr_service limit Hrows Hstatus).
  rewrite (ri_while_same_matching ri_service limit 0
             (solr_first_filter start) (ri_first_filter start)).
  - apply reconcile_same.
  - unfold matching. apply filter_ext_in. intros r Hr.
    destruct start as [s|]; [|reflexivity].
    cbn. specialize (Hedge s r eq_refl Hr).
    destruct (Z.ltb_spec s (snd r)), (Z.leb_spec s (snd r)); try reflexivity; lia.
Qed.

(** The theorem at two copies of an index with a tie, page size 1, and a
    window that starts at the epoch. *)
Lemma agreeing_indexes_exit_zero_witness :
  (0 < 1)%nat /\
  rows service_tie_then_c = rows service_tie_then_c /\
  (forall n, status_code service_tie_then_c n = status_code service_tie_then_c n) /\
  window_start sample_platform (LastNSeconds 0) 7 = inl (Some 0) /\
  (forall s r, Some 0 = Some s -> In r (rows service_tie_then_c) -> snd r <> s) /\
  main trigger_accepting sample_platform (mkArguments (LastNSeconds 0) 1) 7
       service_tie_then_c service_tie_then_c
  = mkRun (Exit 0) gsearch_init.
Proof.
  assert (Hl : (0 < 1)%nat) by lia.
  assert (Hw : window_start sample_platform (LastNSeconds 0) 7 = inl (Some 0))
    by reflexivity.
  assert (Hedge : forall s r, Some 0 = Some s ->
                              In r (rows service_tie_then_c) -> snd r <> s).
  { intros s r Hs Hr. inversion Hs; subst s.
    cbn in Hr. destruct Hr as [<-|[<-|[<-|[]]]]; discriminate. }
  split; [exact Hl|]. split; [reflexivity|]. split; [reflexivity|].
  split; [exact Hw|]. split; [exact Hedge|].
  exact (agreeing_indexes_exit_zero trigger_accepting sample_platform
           (LastNSeconds 0) 1 7 service_tie_then_c service_tie_then_c (Some 0)
           Hl eq_refl (fun _ => eq_refl) Hw Hedge).
Defined.

(** X10.  When line 183 gives a start and the first request to the resource
    index fails, the script compares nothing and calls the trigger not once,
    whatever Solr holds.  If the first request to Solr fails as well it ends
    by [exit(0)], as after a clean pass; if Solr yields a record it ends with
    the [NameError] of the leftover loop. *)
Theorem resource_index_down
    (trigger : nat -> string -> Z) (os : platform) (args : arguments) (now : Z)
    (ri_service solr_service : service) (start : option timestamp) :
  window_start os (switch args) now = inl start ->
  status_code ri_service 0 <> codes_ok ->
  trigger_state (main trigger os args now ri_service solr_service) = gsearch_init /\
  (status_code solr_service 0 <> codes_ok ->
   main trigger os args now ri_service solr_service = mkRun (Exit 0) gsearch_init) /\
  (pending (solr_generator_iter solr_service start (query_limit args)) <> [] ->
   ended (main trigger os args now ri_service solr_service)
   = Traceback (NameError "logger")).
Proof.
  intros Hw Hri.
  unfold main. rewrite Hw.
  unfold ri_generator_iter. rewrite (ri_while_failed _ _ _ _ Hri).
  set (solr_gen := solr_generator_iter solr_service start (query_limit args)).
  assert (Hrun : reconcile trigger (mkGenerator [] StopIteration) solr_gen =
                 match for_leftover trigger (pending solr_gen) (finish solr_gen)
                         gsearch_init with
                 | (g2, Some e) => mkRun (Traceback e) g2
                 | (g2, None) => mkRun (if updated g2 then Exit 1 else Exit 0) g2
                 end) by reflexivity.
  rewrite Hrun, for_leftover_spec. clear Hrun.
  split; [|split].
  - destruct (pending solr_gen), (finish solr_gen); reflexivity.
  - intros Hsolr. unfold solr_gen, solr_generator_iter.
    now rewrite (solr_while_failed _ _ _ _ Hsolr).
  - intros Hne. destruct (pending solr_gen); [now elim Hne|reflexivity].
Qed.

(** The theorem with both services down. *)
Lemma resource_index_down_witness :
  window_start sample_platform (switch (mkArguments All 10)) 0 = inl None /\
  status_code service_down 0 <> codes_ok /\
  trigger_state (main trigger_accepting sample_platform (mkArguments All 10) 0
                   service_down service_down) = gsearch_init /\
  main trigger_accepting sample_platform (mkArguments All 10) 0
       service_down service_down
  = mkRun (Exit 0) gsearch_init.
Proof.
  assert (Hw : window_start sample_platform (switch (mkArguments All 10)) 0
               = inl None) by reflexivity.
  assert (H : status_code service_down 0 <> codes_ok) by (vm_compute; discriminate).
  split; [exact Hw|]. split; [exact H|].
  destruct (resource_index_down trigger_accepting sample_platform
              (mkArguments All 10) 0 service_down service_down None Hw H)
    as (Hstate & Hboth & _).
  split; [exact Hstate|exact (Hboth H)].
Defined.

(** ** What a page boundary can lose *)

Lemma ri_while_keeps_every_timestamp (srv : service) (limit : nat) :
  (0 < limit)%nat ->
  (forall n, status_code srv n = codes_ok) ->
  ascending (rows srv) ->
  forall n f x,
    In x (matching srv f) ->
    exists y, In y (ri_while srv limit n f) /\ snd y = snd x.
Proof.
  intros Hl Hok Hs.
  apply (cursor_induction srv limit
           (fun n f => forall x, In x (matching srv f) ->
                                 exists y, In y (ri_while srv limit n f) /\
                                           snd y = snd x)).
  intros n f IH x Hx.
  rewrite ri_while_step, Hok. change (codes_ok =? codes_ok) with true.
  destruct (page_of srv f limit) as [|r page] eqn:Hp.
  { rewrite (page_of_nil srv limit f Hl Hp) in Hx. destruct Hx. }
  assert (Hm : matching srv f = (r :: page) ++ skipn limit (matching srv f))
    by (rewrite <- Hp; symmetry; apply firstn_skipn).
  assert (Hsorted : StronglySorted time_le ((r :: page) ++ skipn limit (matching srv f)))
    by (rewrite <- Hm; apply time_sorted_filter, ascending_time_sorted, Hs).
  destruct (time_sorted_app _ _ Hsorted) as (_ & _ & Hcross).
  pose proof Hx as Hx'. rewrite Hm in Hx'. apply in_app_or in Hx'.
  destruct Hx' as [Hpage|Hsuf].
  { exists x. split; [apply in_or_app; now left|reflexivity]. }
  specialize (Hcross _ _ (last_in page r) Hsuf). unfold time_le in Hcross.
  destruct (Z.eq_dec (snd (last page r)) (snd x)) as [Heq|Hne].
  { exists (last page r). split; [apply in_or_app; left; apply last_in|exact Heq]. }
  assert (Hnext : In x (matching srv (After (snd (last page r))))).
  { apply filter_In in Hx. destruct Hx as [Hrows _].
    apply filter_In. split; [assumption|]. cbn. apply Z.ltb_lt. lia. }
  destruct (IH r page eq_refl x Hnext) as (y & Hy & Hts).
  exists y. split; [apply in_or_app; now right|exact Hts].
Qed.

(** X11.  What the strict filter after a page can lose is bounded by the
    ties: with a positive page size, every fetch succeeding and the rows in
    the order of the query, a row of the window that a generator does not
    yield shares its timestamp with a row that it does yield, so every
    timestamp of the window is present in the stream. *)
Theorem lost_rows_share_a_yielded_timestamp
    (srv : service) (start : option timestamp) (limit : nat) :
  (0 < limit)%nat ->
  (forall n, status_code srv n = codes_ok) ->
  ascending (rows srv) ->
  (forall x, In x (matching srv (ri_first_filter start)) ->
             exists y, In y (pending (ri_generator_iter srv start limit)) /\
                       snd y = snd x) /\
  (forall x, In x (matching srv (solr_first_filter start)) ->
             exists y, In y (pending (solr_generator_iter srv start limit)) /\
                       snd y = snd x).
Proof.
  intros Hl Hok Hs.
  unfold ri_generator_iter, solr_generator_iter.
  rewrite solr_while_pending. cbn [pending].
  split; intros x Hx; now apply ri_while_keeps_every_timestamp.
Qed.

(** The theorem at two rows with one timestamp and a page size of 1. *)
Lemma lost_rows_share_a_yielded_timestamp_witness :
  (0 < 1)%nat /\
  (forall n, status_code service_tie n = codes_ok) /\
  ascending (rows service_tie) /\
  In ("b"%string, 1) (matching service_tie (ri_first_filter None)) /\
  exists y, In y (pending (ri_generator_iter service_tie None 1)) /\
            snd y = snd ("b"%string, 1).
Proof.
  assert (Hl : (0 < 1)%nat) by lia.
  assert (Hok : forall n, status_code service_tie n = codes_ok) by reflexivity.
  assert (Hs : ascending (rows service_tie)) by ascending_by_evaluation.
  assert (Hb : In ("b"%string, 1) (matching service_tie (ri_first_filter None)))
    by (right; now left).
  repeat (split; [assumption|]).
  destruct (lost_rows_share_a_yielded_timestamp service_tie None 1 Hl Hok Hs)
    as [Hri _].
  exact (Hri _ Hb).
Defined.

(** ** One timestamp for each object *)

Lemma nodup_map_on (f : record -> string) (l : list record) :
  NoDup l ->
  (forall x y, In x l -> In y l -> f x = f y -> x = y) ->
  NoDup (map f l).
Proof.
  induction 1 as [|a l Ha _ IH]; intros Hinj; cbn; constructor.
  - intros Hin. apply in_map_iff in Hin. destruct Hin as (x & Hfx & Hx).
    apply Ha. rewrite <- (Hinj x a); [assumption|now right|now left|assumption].
  - apply IH. intros x y Hx Hy. apply Hinj; now right.
Qed.

Lemma nodup_map_fst_in (l : list record) (p : string) (t t' : timestamp) :
  NoDup (map fst l) -> In (p, t) l -> In (p, t') l -> t = t'.
Proof.
  induction l as [|[q u] l IH]; cbn; intros Hn H1 H2; [destruct H1|].
  inversion Hn as [|? ? Hq Hn']; subst.
  destruct H1 as [E1|H1], H2 as [E2|H2].
  - congruence.
  - inversion E1; subst. elim Hq. apply in_map_iff. now exists (p, t').
  - inversion E2; subst. elim Hq. apply in_map_iff. now exists (p, t).
  - now apply IH.
Qed.

(** X12.  When each stream is correctly sorted and holds every PID once, and
    an object that is in both has the same timestamp in both, no PID is
    handed to the trigger twice. *)
Theorem no_pid_is_flagged_twice
    (trigger : nat -> string -> Z) (A B : list record) :
  ascending A -> NoDup (map fst A) ->
  ascending B -> NoDup (map fst B) ->
  (forall p t t', In (p, t) A -> In (p, t') B -> t = t') ->
  NoDup (requests (trigger_state (reconcile_streams trigger A B))).
Proof.
  intros HA HAn HB HBn Hagree.
  assert (SA : StronglySorted key_lt A)
    by (apply ascending_strict; [assumption|eapply NoDup_map_inv; eassumption]).
  assert (SB : StronglySorted key_lt B)
    by (apply ascending_strict; [assumption|eapply NoDup_map_inv; eassumption]).
  unfold reconcile_streams. rewrite reconcile_flags. cbn [pending].
  apply nodup_map_on; [apply strict_nodup, flagged_strict; assumption|].
  intros [p t] [q u] Hx Hy Hpq. cbn in Hpq. subst q. f_equal.
  destruct (flagged_sound A B SA SB _ Hx) as [[Hx1 Hx2]|[Hx1 Hx2]],
           (flagged_sound A B SA SB _ Hy) as [[Hy1 Hy2]|[Hy1 Hy2]].
  - exact (nodup_map_fst_in A p t u HAn Hx1 Hy1).
  - exact (Hagree p t u Hx1 Hy1).
  - symmetry. exact (Hagree p u t Hy1 Hx1).
  - exact (nodup_map_fst_in B p t u HBn Hx1 Hy1).
Qed.

(** The theorem at scenario 4 of the specification. *)
Lemma no_pid_is_flagged_twice_witness :
  ascending stream_ab /\ NoDup (map fst stream_ab) /\
  ascending stream_bc /\ NoDup (map fst stream_bc) /\
  (forall p t t', In (p, t) stream_ab -> In (p, t') stream_bc -> t = t') /\
  NoDup (requests (trigger_state
                     (reconcile_streams trigger_accepting stream_ab stream_bc))).
Proof.
  assert (HA : ascending stream_ab) by ascending_by_evaluation.
  assert (HB : ascending stream_bc) by ascending_by_evaluation.
  assert (HAn : NoDup (map fst stream_ab)) by distinct_by_evaluation.
  assert (HBn : NoDup (map fst stream_bc)) by distinct_by_evaluation.
  assert (Hagree : forall p t t',
             In (p, t) stream_ab -> In (p, t') stream_bc -> t = t').
  { intros p t t' H1 H2. cbn in H1, H2.
    destruct H1 as [H1|[H1|[]]], H2 as [H2|[H2|[]]]; congruence. }
  repeat (split; [assumption|]).
  exact (no_pid_is_flagged_twice trigger_accepting stream_ab stream_bc
           HA HAn HB HBn Hagree).
Defined.
